(** * Copilot proxy: LSP framing, lifecycle coupling and upgrade routing

    A shallow embedding of the WebSocket <-> child-process proxy and of the
    browser-side reader, followed by the properties of the frame decoder, of
    the lifecycle handlers and of the upgrade handler.

    - [Proxy]: [setupCopilotProxy] in its framing version, which gathers the
      bytes of [child.stdout] in a buffer and forwards whole
      [Content-Length] frames.
    - [RawProxy]: [setupCopilotProxy] of [src/copilotProxy.js], which
      forwards every chunk as it comes.
    - [Upgrade]: the [upgrade] listener, the same in both.
    - [Transport]: [parseMessages] and the [message] listener of
      [WebSocketMessageReader], in [websocket-transport.ts].
    - [TextEncoder], [Writer], [Reader]: [WebSocketMessageWriter.write] with
      the UTF-8 length it declares, and the reader with [listen] and
      [dispose].
    - [Chat]: the component [App] of [taskpane/App.tsx].
    - [Permission]: [PermissionService] of [lib/permissionService.ts] and
      the decision "always" of the permission dialog.

    Conventions.
    - A Node [Buffer] is a [list byte]; a JavaScript string is the list of
      its UTF-16 code units, each an [N].
    - A handler is a function from the state of the connection to the calls
      it makes on the socket, the child and the console, and the next
      state.  What a handler reads from the [ws] and [child] objects is
      given with the event: [ws.readyState], and whether a signal sent now
      reaches the child.
    - [JSON.parse] and [new URL] are parameters, partial where they throw.
    - Numbers are exact.  JavaScript computes [parseInt] and the offsets in
      doubles, which are exact below 2^53; a declared length above that is
      larger than any buffer Node can allocate, so the comparison of the
      buffer length with the end offset has the same outcome. *)

From Stdlib Require Import Strings.Byte Strings.String.
From Stdlib Require Import List NArith ZArith PeanoNat Bool Lia DecimalN DecimalPos.
Import ListNotations.

Set Implicit Arguments.

(* ------------------------------------------------------------------ *)
(** ** Sequences: [indexOf] and [slice] *)

Module Seq.
Section Generic.
Variable A : Type.
Variable eqb : A -> A -> bool.

(** [needle] is a prefix of [hay]. *)
Fixpoint starts_with (needle hay : list A) : bool :=
  match needle, hay with
  | [], _ => true
  | _ :: _, [] => false
  | x :: needle', y :: hay' => eqb x y && starts_with needle' hay'
  end.

(** [hay.indexOf(needle)]: offset of the first occurrence, [None] for -1. *)
Fixpoint indexOf (needle hay : list A) : option nat :=
  if starts_with needle hay then Some 0
  else match hay with
       | [] => None
       | _ :: hay' => option_map S (indexOf needle hay')
       end.

(** [hay.indexOf(needle, pos)] for [0 <= pos]. *)
Definition indexOf_from (needle hay : list A) (pos : nat) : option nat :=
  option_map (Nat.add pos) (indexOf needle (skipn pos hay)).

(** [s.slice(from, to)] for [0 <= from]; both ends are clamped. *)
Definition slice (s : list A) (from to : nat) : list A :=
  firstn (to - from) (skipn from s).
End Generic.
End Seq.

(** The delimiter [\r\n\r\n]. *)
Definition CR : byte := x0d.
Definition LF : byte := x0a.
Definition CRLFCRLF : list byte := [CR; LF; CR; LF].

Definition Buffer := list byte.

(** [buffer.indexOf('\r\n\r\n')] on a [Buffer]. *)
Definition buffer_indexOf (needle : list byte) (buffer : Buffer) : option nat :=
  Seq.indexOf Byte.eqb needle buffer.

(** A JavaScript string, as UTF-16 code units. *)
Abbreviation code_unit := N.
Abbreviation jsstring := (list code_unit).

Definition js_of_bytes (bs : list byte) : jsstring := map Byte.to_N bs.
Definition js (s : string) : jsstring := js_of_bytes (list_byte_of_string s).

Definition string_indexOf_from (needle hay : jsstring) (pos : nat) : option nat :=
  Seq.indexOf_from N.eqb needle hay pos.

(* ------------------------------------------------------------------ *)
(** ** [Buffer.prototype.toString('utf8')]

    The decoder of the Encoding standard: ill-formed sequences become
    U+FFFD and the byte that broke a sequence is read again as a first byte;
    code points above U+FFFF become a surrogate pair. *)

Module Utf8.

Record state := {
  needed : nat;          (* continuation bytes still expected *)
  code_point : N;        (* bits gathered so far *)
  lower : N;             (* bounds of the next continuation byte *)
  upper : N
}.

Definition REPLACEMENT : N := 65533.   (* U+FFFD *)

Definition units_of_code_point (cp : N) : jsstring :=
  if (cp <? 65536)%N then [cp]
  else let v := (cp - 65536)%N in
       [(55296 + N.shiftr v 10)%N; (56320 + N.land v 1023)%N].

(** A byte read while no sequence is open. *)
Definition first_byte (b : N) : jsstring * option state :=
  if (b <? 128)%N then ([b], None)
  else if ((194 <=? b) && (b <=? 223))%N then
    ([], Some {| needed := 1; code_point := N.land b 31; lower := 128; upper := 191 |})
  else if ((224 <=? b) && (b <=? 239))%N then
    ([], Some {| needed := 2; code_point := N.land b 15;
                 lower := if (b =? 224)%N then 160 else 128;
                 upper := if (b =? 237)%N then 159 else 191 |})
  else if ((240 <=? b) && (b <=? 244))%N then
    ([], Some {| needed := 3; code_point := N.land b 7;
                 lower := if (b =? 240)%N then 144 else 128;
                 upper := if (b =? 244)%N then 143 else 191 |})
  else ([REPLACEMENT], None).

Fixpoint decode (st : option state) (bs : list byte) : jsstring :=
  match bs with
  | [] => match st with None => [] | Some _ => [REPLACEMENT] end
  | b0 :: bs' =>
    let b := Byte.to_N b0 in
    match st with
    | None =>
      let (out, st') := first_byte b in out ++ decode st' bs'
    | Some s =>
      if ((lower s <=? b) && (b <=? upper s))%N then
        let cp := N.lor (N.shiftl (code_point s) 6) (N.land b 63) in
        match needed s with
        | 0 | 1 => units_of_code_point cp ++ decode None bs'
        | S n => decode (Some {| needed := n; code_point := cp;
                                 lower := 128; upper := 191 |}) bs'
        end
      else
        let (out, st') := first_byte b in
        REPLACEMENT :: out ++ decode st' bs'
    end
  end.

Definition toString (bs : list byte) : jsstring := decode None bs.

End Utf8.

(* ------------------------------------------------------------------ *)
(** ** The header pattern [/Content-Length:\s*(\d+)/i] and [parseInt] *)

Module Header.

(** [\s]: WhiteSpace and LineTerminator code points. *)
Definition is_space (c : code_unit) : bool :=
  ((9 <=? c) && (c <=? 13) || (c =? 32) || (c =? 160) || (c =? 5760)
   || (8192 <=? c) && (c <=? 8202) || (c =? 8232) || (c =? 8233)
   || (c =? 8239) || (c =? 8287) || (c =? 12288) || (c =? 65279))%N.

(** [\d]: [0-9]. *)
Definition is_digit (c : code_unit) : bool := ((48 <=? c) && (c <=? 57))%N.

(** Canonicalize of the [i] flag without the [u] flag: a code unit is
    compared through its upper case, and a unit outside ASCII is never
    mapped into ASCII, so only [a-z] move. *)
Definition canonicalize (c : code_unit) : code_unit :=
  if ((97 <=? c) && (c <=? 122))%N then (c - 32)%N else c.

Definition PATTERN : jsstring := Eval cbv in js "Content-Length:".

(** The literal part of the pattern at the head of [s]; what follows it. *)
Fixpoint literal (pat s : jsstring) : option jsstring :=
  match pat, s with
  | [], _ => Some s
  | _ :: _, [] => None
  | p :: pat', c :: s' =>
    if (canonicalize p =? canonicalize c)%N then literal pat' s' else None
  end.

(** [\s*], greedy. *)
Fixpoint skip_spaces (s : jsstring) : jsstring :=
  match s with
  | c :: s' => if is_space c then skip_spaces s' else s
  | [] => []
  end.

(** [\d*], greedy: the run of digits at the head of [s]. *)
Fixpoint digits (s : jsstring) : jsstring :=
  match s with
  | c :: s' => if is_digit c then c :: digits s' else []
  | [] => []
  end.

(** The pattern anchored at the head of [s].  No digit is a space, so
    giving spaces back never lets [\d+] succeed: the greedy choice is the
    only one to try. *)
Definition match_here (s : jsstring) : option jsstring :=
  match literal PATTERN s with
  | None => None
  | Some rest =>
    match digits (skip_spaces rest) with
    | [] => None
    | ds => Some ds
    end
  end.

(** [s.match(/Content-Length:\s*(\d+)/i)]: the leftmost match; the result
    is capture group 1. *)
Fixpoint match_content_length (s : jsstring) : option jsstring :=
  match match_here s with
  | Some ds => Some ds
  | None =>
    match s with
    | [] => None
    | _ :: s' => match_content_length s'
    end
  end.

(** [parseInt(ds, 10)] on a string of digits. *)
Definition parseInt (ds : jsstring) : N :=
  fold_left (fun acc c => (acc * 10 + (c - 48))%N) ds 0%N.

End Header.

(* ------------------------------------------------------------------ *)
(** ** Frames on the wire

    [Content-Length: N\r\n\r\n] followed by the N bytes of the payload, as
    the child writes them and as [WebSocketMessageWriter.write] builds them
    ([header + content], the length printed in decimal). *)

Module Frame.

Fixpoint bytes_of_uint (d : Decimal.uint) : list byte :=
  match d with
  | Decimal.Nil => []
  | Decimal.D0 d' => x30 :: bytes_of_uint d'
  | Decimal.D1 d' => x31 :: bytes_of_uint d'
  | Decimal.D2 d' => x32 :: bytes_of_uint d'
  | Decimal.D3 d' => x33 :: bytes_of_uint d'
  | Decimal.D4 d' => x34 :: bytes_of_uint d'
  | Decimal.D5 d' => x35 :: bytes_of_uint d'
  | Decimal.D6 d' => x36 :: bytes_of_uint d'
  | Decimal.D7 d' => x37 :: bytes_of_uint d'
  | Decimal.D8 d' => x38 :: bytes_of_uint d'
  | Decimal.D9 d' => x39 :: bytes_of_uint d'
  end.

(** The decimal digits of [n], without leading zeros. *)
Definition decimal (n : N) : list byte := bytes_of_uint (N.to_uint n).

Definition FIELD : list byte := Eval cbv in list_byte_of_string "Content-Length: ".

Definition header (n : N) : list byte := FIELD ++ decimal n.

Definition encode (payload : Buffer) : Buffer :=
  header (N.of_nat (length payload)) ++ CRLFCRLF ++ payload.

(** Frames written one after the other. *)
Definition stream (payloads : list Buffer) : Buffer :=
  concat (map encode payloads).

(** [part] is the beginning of the frame of [payload], and not all of it. *)
Definition partial_frame (part payload : Buffer) : Prop :=
  exists missing, missing <> [] /\ part ++ missing = encode payload.

(** What is buffered of the frames [todo] when none of them is complete:
    a part of the first one. *)
Definition pending (part : Buffer) (todo : list Buffer) : Prop :=
  match todo with
  | [] => part = []
  | payload :: _ => partial_frame part payload
  end.

End Frame.

(* ------------------------------------------------------------------ *)
(** ** What a handler does: calls on the socket, the child and the console *)

Inductive ReadyState := CONNECTING | OPEN | CLOSING | CLOSED.

Definition is_open (rs : ReadyState) : bool :=
  match rs with OPEN => true | _ => false end.

(** [String.prototype.trim]. *)
Definition trim (s : jsstring) : jsstring :=
  rev (Header.skip_spaces (rev (Header.skip_spaces s))).

Inductive console_line :=
| StderrLine (text : jsstring)        (* console.error('[copilot-cli stderr]', text) *)
| ExitedLine (code : option Z)        (* console.log(`[copilot-cli] exited with code ${code}`) *)
| ProxyLine (text : jsstring).        (* the console.log of the message preview *)

Inductive call :=
| WsClose (code : N) (reason : string)   (* ws.close(code, reason) *)
| WsSend (data : Buffer)                 (* ws.send(data) *)
| StdinWrite (data : Buffer)             (* child.stdin.write(data) *)
| ChildKill                              (* child.kill() *)
| Console (line : console_line).

Definition sent (c : call) : list Buffer :=
  match c with WsSend data => [data] | _ => [] end.

(** The payloads handed to [ws.send], in order. *)
Definition sends (cs : list call) : list Buffer := flat_map sent cs.

Definition is_kill (c : call) : bool :=
  match c with ChildKill => true | _ => false end.

(** How many times [child.kill()] is called. *)
Definition kills (cs : list call) : nat := length (filter is_kill cs).

Definition closes (cs : list call) : list (N * string) :=
  flat_map (fun c => match c with WsClose code reason => [(code, reason)] | _ => [] end) cs.

(** The state a connection closes over: the accumulation buffer and
    [child.killed].  Node sets [child.killed] when [child.kill()] delivered
    its signal. *)
Record Connection := {
  buffer : Buffer;
  killed : bool
}.

Definition connected : Connection := {| buffer := []; killed := false |}.

(** [if (!child.killed) child.kill()].  [delivered] tells whether a signal
    sent now reaches the child; it does not once the child is gone. *)
Definition kill_child (delivered : bool) (st : Connection) : list call * Connection :=
  if killed st then ([], st)
  else ([ChildKill], {| buffer := buffer st; killed := delivered |}).

(** [if (!child.killed) child.stdin.write(data)]. *)
Definition write_stdin (data : Buffer) (st : Connection) : list call * Connection :=
  if killed st then ([], st) else ([StdinWrite data], st).

Definition NORMAL_CLOSURE : N := 1000.
Definition INTERNAL_ERROR : N := 1011.

(** Events of one connection, with what the handler reads from the [ws]
    and [child] objects when it runs. *)
Inductive event :=
| ChildError
| ChildExit (code : option Z)
| StdoutData (readyState : ReadyState) (data : Buffer)
| StderrData (data : Buffer)
| WsMessage (data : Buffer)
| WsClosed (delivered : bool)
| WsError (delivered : bool).

(* ------------------------------------------------------------------ *)
(** ** The framing proxy: [setupCopilotProxy] with the accumulation buffer *)

Module Proxy.
Section WithJSON.

(** [JSON.parse], [None] when it throws, and the preview that the
    [try] block prints for a parsed message: [None] when no branch prints
    or when building the preview throws (the [catch] is empty). *)
Variable JSON : Type.
Variable JSON_parse : jsstring -> option JSON.
Variable preview : JSON -> option jsstring.

Definition MAX_ITERATIONS : nat := 100.

(** The [try { ... } catch {}] block. *)
Definition log_message (headerEnd : nat) (message : Buffer) : list call :=
  let body := Utf8.toString (skipn (headerEnd + 4) message) in
  match JSON_parse body with
  | None => []
  | Some json =>
    match preview json with
    | None => []
    | Some text => [Console (ProxyLine text)]
    end
  end.

(** [if (ws.readyState === ws.OPEN) ws.send(message)]. *)
Definition forward (readyState : ReadyState) (message : Buffer) : list call :=
  if is_open readyState then [WsSend message] else [].

(** [while (iterations++ < 100) { ... }]: [fuel] is the number of times
    the body may still run. *)
Fixpoint drain (fuel : nat) (readyState : ReadyState) (buffer : Buffer)
  : list call * Buffer :=
  match fuel with
  | 0 => ([], buffer)
  | S fuel' =>
    match buffer_indexOf CRLFCRLF buffer with
    | None => ([], buffer)
    | Some headerEnd =>
      let header := Utf8.toString (firstn headerEnd buffer) in
      match Header.match_content_length header with
      | None => drain fuel' readyState (skipn (headerEnd + 4) buffer)
      | Some ds =>
        let contentLength := Header.parseInt ds in
        let messageEnd := (N.of_nat headerEnd + 4 + contentLength)%N in
        if (N.of_nat (length buffer) <? messageEnd)%N then ([], buffer)
        else
          let message := firstn (N.to_nat messageEnd) buffer in
          let buffer := skipn (N.to_nat messageEnd) buffer in
          let (calls, buffer) := drain fuel' readyState buffer in
          (log_message headerEnd message ++ forward readyState message ++ calls,
           buffer)
      end
    end
  end.

(** What a turn of the loop does with the frame of [payload] when it
    extracts it: the preview, then the guarded send. *)
Definition frame_calls (readyState : ReadyState) (payload : Buffer) : list call :=
  log_message (length (Frame.header (N.of_nat (length payload))))
              (Frame.encode payload)
  ++ forward readyState (Frame.encode payload).

Definition frames_calls (readyState : ReadyState) (payloads : list Buffer)
  : list call :=
  flat_map (frame_calls readyState) payloads.

(** [child.stdout.on('data', ...)]. *)
Definition on_stdout_data (readyState : ReadyState) (data : Buffer) (st : Connection)
  : list call * Connection :=
  let (calls, buffer) := drain MAX_ITERATIONS readyState (buffer st ++ data) in
  (calls, {| buffer := buffer; killed := killed st |}).

Definition handle (e : event) (st : Connection) : list call * Connection :=
  match e with
  | ChildError => ([WsClose INTERNAL_ERROR "Child process error"], st)
  | ChildExit code =>
    ([Console (ExitedLine code); WsClose NORMAL_CLOSURE "Child process exited"], st)
  | StdoutData readyState data => on_stdout_data readyState data st
  | StderrData data => ([Console (StderrLine (trim (Utf8.toString data)))], st)
  | WsMessage data => write_stdin data st
  | WsClosed delivered => kill_child delivered st
  | WsError delivered => kill_child delivered st
  end.

(** The events of a connection, handled one after the other. *)
Fixpoint run (es : list event) (st : Connection) : list call * Connection :=
  match es with
  | [] => ([], st)
  | e :: es' =>
    let (calls, st') := handle e st in
    let (calls', st'') := run es' st' in
    (calls ++ calls', st'')
  end.

(** The chunks of [child.stdout], delivered while the socket is in state
    [readyState]. *)
Definition feed (readyState : ReadyState) (chunks : list Buffer) (st : Connection)
  : list call * Connection :=
  run (map (StdoutData readyState) chunks) st.

End WithJSON.
End Proxy.

(* ------------------------------------------------------------------ *)
(** ** The raw-forwarding proxy: [setupCopilotProxy] without a buffer *)

Module RawProxy.

Definition on_stdout_data (readyState : ReadyState) (data : Buffer) : list call :=
  if is_open readyState then [WsSend data] else [].

Definition handle (e : event) (st : Connection) : list call * Connection :=
  match e with
  | ChildError => ([WsClose INTERNAL_ERROR "Child process error"], st)
  | ChildExit _ => ([WsClose NORMAL_CLOSURE "Child process exited"], st)
  | StdoutData readyState data => (on_stdout_data readyState data, st)
  | StderrData _ => ([], st)
  | WsMessage data => write_stdin data st
  | WsClosed delivered => kill_child delivered st
  | WsError delivered => kill_child delivered st
  end.

Fixpoint run (es : list event) (st : Connection) : list call * Connection :=
  match es with
  | [] => ([], st)
  | e :: es' =>
    let (calls, st') := handle e st in
    let (calls', st'') := run es' st' in
    (calls ++ calls', st'')
  end.

End RawProxy.

(* ------------------------------------------------------------------ *)
(** ** The upgrade handler, the same in both proxies *)

Module Upgrade.
Section WithURL.

(** [new URL(input, base).pathname]; [None] when the constructor throws
    its [TypeError]. *)
Variable URL_pathname : jsstring -> jsstring -> option jsstring.

Record Request := {
  url : jsstring;                 (* request.url *)
  host : option jsstring          (* request.headers.host, possibly undefined *)
}.

Inductive outcome :=
| Returns (calls : list Request)  (* the requests given to wss.handleUpgrade *)
| Throws.

Definition ROUTE : jsstring := Eval cbv in js "/api/copilot".

(** [`https://${request.headers.host}`]. *)
Definition base (request : Request) : jsstring :=
  js "https://" ++ match host request with Some h => h | None => js "undefined" end.

Definition jsstring_eqb (a b : jsstring) : bool :=
  if list_eq_dec N.eq_dec a b then true else false.

Definition upgradeHandler (request : Request) : outcome :=
  match URL_pathname (url request) (base request) with
  | None => Throws
  | Some pathname =>
    if jsstring_eqb pathname ROUTE then Returns [request] else Returns []
  end.

End WithURL.
End Upgrade.

(* ------------------------------------------------------------------ *)
(** ** The browser-side reader: [parseMessages] *)

Module Transport.

Definition DELIMITER : jsstring := Eval cbv in js_of_bytes CRLFCRLF.

(** A frame as the reader measures it: the header declares the number of
    code units of [content].  (For text outside ASCII this is not the
    number of bytes that [WebSocketMessageWriter.write] declares.) *)
Definition frame (content : jsstring) : jsstring :=
  js_of_bytes (Frame.header (N.of_nat (length content))) ++ DELIMITER ++ content.

(** [part] is the beginning of the frame of [content], and not all of it. *)
Definition partial_frame (part content : jsstring) : Prop :=
  exists missing, missing <> [] /\ part ++ missing = frame content.

Section WithJSON.

Variable JSON : Type.
Variable JSON_parse : jsstring -> option JSON.

(** [try { messages.push(JSON.parse(content)) } catch { }]. *)
Definition push (content : jsstring) (messages : list JSON) : list JSON :=
  match JSON_parse content with
  | Some message => message :: messages
  | None => messages
  end.

(** [while (pos < buffer.length) { ... }]; the result is the messages
    pushed and the final [pos].  [fuel] bounds the number of turns. *)
Fixpoint parse_loop (fuel : nat) (buffer : jsstring) (pos : nat)
  : list JSON * nat :=
  match fuel with
  | 0 => ([], pos)
  | S fuel' =>
    if pos <? length buffer then
      match string_indexOf_from DELIMITER buffer pos with
      | None => ([], pos)
      | Some headerEnd =>
        let header := Seq.slice buffer pos headerEnd in
        match Header.match_content_length header with
        | None => ([], pos)
        | Some ds =>
          let contentLength := Header.parseInt ds in
          let contentStart := headerEnd + 4 in
          let contentEnd := (N.of_nat contentStart + contentLength)%N in
          if (N.of_nat (length buffer) <? contentEnd)%N then ([], pos)
          else
            let content := Seq.slice buffer contentStart (N.to_nat contentEnd) in
            let (messages, pos') := parse_loop fuel' buffer (N.to_nat contentEnd) in
            (push content messages, pos')
        end
      end
    else ([], pos)
  end.

(** Every turn that goes on moves [pos] forward by at least four, so
    [length buffer] turns and the one that stops are enough. *)
Definition parseMessages (buffer : jsstring) : list JSON * jsstring :=
  let (messages, pos) := parse_loop (S (length buffer)) buffer 0 in
  (messages, skipn pos buffer).

(** The [message] listener of [WebSocketMessageReader]: the messages given
    to the callback and the new [this.buffer]. *)
Definition on_message (buffer text : jsstring) : list JSON * jsstring :=
  parseMessages (buffer ++ text).

(** The message events of a socket, one after the other. *)
Fixpoint receive (texts : list jsstring) (buffer : jsstring)
  : list JSON * jsstring :=
  match texts with
  | [] => ([], buffer)
  | text :: texts' =>
    let (messages, buffer') := on_message buffer text in
    let (messages', buffer'') := receive texts' buffer' in
    (messages ++ messages', buffer'')
  end.

End WithJSON.
End Transport.

(* ------------------------------------------------------------------ *)
(** ** Strings: comparison, [startsWith], [endsWith], truthiness *)

(** [a === b] on strings. *)
Definition str_eqb (a b : jsstring) : bool :=
  if list_eq_dec N.eq_dec a b then true else false.

(** [s.startsWith(prefix)] and [s.endsWith(suffix)]. *)
Definition startsWith (s prefix : jsstring) : bool :=
  Seq.starts_with N.eqb prefix s.

Definition endsWith (s suffix : jsstring) : bool :=
  Seq.starts_with N.eqb (rev suffix) (rev s).

(** An optional string field, [None] when it is [undefined] or [null].
    It is truthy when it is there and not empty. *)
Definition truthy (o : option jsstring) : bool :=
  match o with
  | Some (_ :: _) => true
  | _ => false
  end.

(** [a || b] on optional strings. *)
Definition or_else (a b : option jsstring) : option jsstring :=
  if truthy a then a else b.

(* ------------------------------------------------------------------ *)
(** ** [new TextEncoder().encode(s)]

    UTF-8 of the string read as scalar values: a surrogate pair is one
    code point of four bytes, a surrogate alone becomes U+FFFD. *)

Module TextEncoder.

Definition byte_of (n : N) : byte :=
  match Byte.of_N n with Some b => b | None => x00 end.

Definition is_high (c : code_unit) : bool := ((55296 <=? c) && (c <=? 56319))%N.
Definition is_low (c : code_unit) : bool := ((56320 <=? c) && (c <=? 57343))%N.

Definition three_bytes (c : N) : list byte :=
  [byte_of (224 + N.shiftr c 12);
   byte_of (128 + N.land (N.shiftr c 6) 63);
   byte_of (128 + N.land c 63)].

Definition four_bytes (cp : N) : list byte :=
  [byte_of (240 + N.shiftr cp 18);
   byte_of (128 + N.land (N.shiftr cp 12) 63);
   byte_of (128 + N.land (N.shiftr cp 6) 63);
   byte_of (128 + N.land cp 63)].

Definition REPLACEMENT : list byte := [xef; xbf; xbd].

Fixpoint encode (s : jsstring) : list byte :=
  match s with
  | [] => []
  | c :: s' =>
    if (c <? 128)%N then byte_of c :: encode s'
    else if (c <? 2048)%N then
      byte_of (192 + N.shiftr c 6) :: byte_of (128 + N.land c 63) :: encode s'
    else if is_high c then
      match s' with
      | d :: s'' =>
        if is_low d then
          four_bytes (65536 + N.shiftl (c - 55296) 10 + (d - 56320)) ++ encode s''
        else REPLACEMENT ++ encode s'
      | [] => REPLACEMENT
      end
    else if is_low c then REPLACEMENT ++ encode s'
    else three_bytes c ++ encode s'
  end.

End TextEncoder.

(* ------------------------------------------------------------------ *)
(** ** The writer and the listeners of the reader, in
    [websocket-transport.ts] *)

Module Writer.
Section WithJSON.

(** [JSON.stringify(msg)], [None] when it throws (a message is an object:
    when it returns, it returns a string). *)
Variable JSON : Type.
Variable JSON_stringify : JSON -> option jsstring.

(** [`Content-Length: ${new TextEncoder().encode(content).length}\r\n\r\n`
    + content]. *)
Definition frame (content : jsstring) : jsstring :=
  js_of_bytes (Frame.header (N.of_nat (length (TextEncoder.encode content))))
  ++ Transport.DELIMITER ++ content.

Inductive effect :=
| Send (text : jsstring)                 (* this.socket.send(header + content) *)
| FireError (msg : JSON) (count : nat).  (* this.fireError(error, msg, this.errorCount) *)

(** [write(msg)], from [this.errorCount] to what it does and the new
    count.  [send_throws] tells whether [socket.send] throws, as it does on
    a socket that is still connecting. *)
Definition write (send_throws : bool) (msg : JSON) (errorCount : nat)
  : list effect * nat :=
  match JSON_stringify msg with
  | None => ([FireError msg (S errorCount)], S errorCount)
  | Some content =>
    if send_throws then ([FireError msg (S errorCount)], S errorCount)
    else ([Send (frame content)], errorCount)
  end.

(** Writes one after the other. *)
Fixpoint writes (calls : list (bool * JSON)) (errorCount : nat)
  : list effect * nat :=
  match calls with
  | [] => ([], errorCount)
  | (send_throws, msg) :: calls' =>
    let (effects, errorCount') := write send_throws msg errorCount in
    let (effects', errorCount'') := writes calls' errorCount' in
    (effects ++ effects', errorCount'')
  end.

Definition sent_text (e : effect) : list jsstring :=
  match e with Send text => [text] | FireError _ _ => [] end.

(** What went to the socket, in order. *)
Definition sent_texts (effects : list effect) : list jsstring :=
  flat_map sent_text effects.

End WithJSON.
End Writer.

Module Reader.
Section WithJSON.

Variable JSON : Type.
Variable JSON_parse : jsstring -> option JSON.

(** [this.buffer] and [this.callback]; a callback is known by the number
    of its registration. *)
Record state := {
  buffer : jsstring;
  callback : option nat
}.

(** The [message] event of the socket with text data, [listen(callback)],
    and [dispose()] of the object that some [listen] returned. *)
Inductive event :=
| Message (text : jsstring)
| Listen (callback : nat)
| Dispose.

(** The calls [this.callback?.(msg)] of one event: who is called, with
    what. *)
Definition handle (e : event) (st : state) : list (nat * JSON) * state :=
  match e with
  | Message text =>
    let (messages, remainder) := Transport.on_message JSON_parse (buffer st) text in
    (match callback st with
     | Some c => map (pair c) messages
     | None => []
     end,
     {| buffer := remainder; callback := callback st |})
  | Listen c => ([], {| buffer := buffer st; callback := Some c |})
  | Dispose => ([], {| buffer := buffer st; callback := None |})
  end.

Fixpoint run (es : list event) (st : state) : list (nat * JSON) * state :=
  match es with
  | [] => ([], st)
  | e :: es' =>
    let (calls, st') := handle e st in
    let (calls', st'') := run es' st' in
    (calls ++ calls', st'')
  end.

Definition text_of (e : event) : list jsstring :=
  match e with Message text => [text] | _ => [] end.

End WithJSON.
End Reader.

(* ------------------------------------------------------------------ *)
(** ** The chat of the task pane: [App] in [taskpane/App.tsx] *)

Module Chat.

Inductive Sender := user | assistant.

(** [id] is the number whose digits make the identifier; [timestamp] the
    time of [new Date()]. *)
Record Message := {
  id : N;
  text : jsstring;
  sender : Sender;
  timestamp : N
}.

(** The state of the component, and the user messages whose reply timer
    has not yet fired, oldest first. *)
Record state := {
  messages : list Message;
  inputValue : jsstring;
  isTyping : bool;
  timers : list Message
}.

Definition initial : state :=
  {| messages := []; inputValue := []; isTyping := false; timers := [] |}.

Definition YOU_SAID : jsstring := Eval cbv in js "You said: ".

(** [handleSend], at time [now]. *)
Definition handleSend (now : N) (st : state) : state :=
  match trim (inputValue st) with
  | [] => st
  | _ =>
    let userMessage :=
      {| id := now; text := inputValue st; sender := user; timestamp := now |} in
    {| messages := messages st ++ [userMessage];
       inputValue := [];
       isTyping := true;
       timers := timers st ++ [userMessage] |}
  end.

(** The function given to [setTimeout], for [userMessage], at time [now]. *)
Definition reply (userMessage : Message) (now : N) : Message :=
  {| id := now + 1; text := YOU_SAID ++ text userMessage;
     sender := assistant; timestamp := now |}.

Inductive event :=
| Change (value : jsstring)   (* onChange = setInputValue *)
| SendClicked (now : N)       (* onSend = handleSend *)
| TimerFires (now : N)        (* the oldest timer runs *)
| NewChat.                    (* onNewChat = handleClearChat *)

Definition handle (e : event) (st : state) : state :=
  match e with
  | Change value =>
    {| messages := messages st; inputValue := value;
       isTyping := isTyping st; timers := timers st |}
  | SendClicked now => handleSend now st
  | TimerFires now =>
    match timers st with
    | [] => st
    | userMessage :: timers' =>
      {| messages := messages st ++ [reply userMessage now];
         inputValue := inputValue st;
         isTyping := false;
         timers := timers' |}
    end
  | NewChat =>
    {| messages := []; inputValue := inputValue st;
       isTyping := isTyping st; timers := timers st |}
  end.

Definition run (es : list event) (st : state) : state :=
  fold_left (fun st e => handle e st) es st.

Definition from (s : Sender) (m : Message) : bool :=
  match s, sender m with
  | user, user | assistant, assistant => true
  | _, _ => false
  end.

Definition is_new_chat (e : event) : bool :=
  match e with NewChat => true | _ => false end.

End Chat.

(* ------------------------------------------------------------------ *)
(** ** [PermissionService], in [lib/permissionService.ts], and the
    decision handler that saves its rules *)

Module Permission.

Record PermissionRule := {
  rule_kind : jsstring;
  pathPrefix : jsstring
}.

Record PermissionRequest := {
  kind : jsstring;
  path : option jsstring;
  fileName : option jsstring;
  fullCommandText : option jsstring
}.

Definition SLASH : jsstring := Eval cbv in js "/".
Definition SHELL : jsstring := Eval cbv in js "shell".
Definition MCP : jsstring := Eval cbv in js "mcp".
Definition READ : jsstring := Eval cbv in js "read".

Definition normPath (p : jsstring) : jsstring :=
  if endsWith p SLASH then p else p ++ SLASH.

Definition isUnder (filePath prefix : jsstring) : bool :=
  str_eqb filePath prefix || startsWith filePath (normPath prefix).

(** The item of [localStorage] under the key of the rules: none, the text
    of an array of rules (what this service writes), or a text that
    [JSON.parse] refuses. *)
Inductive item :=
| NoItem
| RulesText (rules : list PermissionRule)
| Unparsable.

Record service := {
  allowAll : bool;
  cwd : option jsstring;
  stored : item
}.

Definition with_stored (s : service) (i : item) : service :=
  {| allowAll := allowAll s; cwd := cwd s; stored := i |}.

Definition getRules (s : service) : list PermissionRule :=
  match stored s with
  | RulesText rules => rules
  | NoItem | Unparsable => []
  end.

Definition same_rule (a b : PermissionRule) : bool :=
  str_eqb (rule_kind a) (rule_kind b) && str_eqb (pathPrefix a) (pathPrefix b).

Definition addRule (rule : PermissionRule) (s : service) : service :=
  let rules := getRules s in
  let norm := {| rule_kind := rule_kind rule; pathPrefix := normPath (pathPrefix rule) |} in
  if existsb (fun r => same_rule r norm) rules then s
  else with_stored s (RulesText (rules ++ [norm])).

(** [rules.splice(index, 1)] for an integer [index]: a negative index
    counts from the end. *)
Definition splice1 (A : Type) (rules : list A) (index : Z) : list A :=
  let len := Z.of_nat (length rules) in
  let start := if (index <? 0)%Z then Z.max (len + index) 0 else Z.min index len in
  firstn (Z.to_nat start) rules ++ skipn (S (Z.to_nat start)) rules.

Definition removeRule (index : Z) (s : service) : service :=
  with_stored s (RulesText (splice1 (getRules s) index)).

Definition clearRules (s : service) : service := with_stored s NoItem.

(** [filePath && isUnder(filePath, dir)]. *)
Definition under (filePath : option jsstring) (dir : jsstring) : bool :=
  match filePath with
  | Some f => truthy filePath && isUnder f dir
  | None => false
  end.

(** The loop over the saved rules in [evaluate]. *)
Fixpoint find_rule (request : PermissionRequest) (rules : list PermissionRule)
  : bool :=
  match rules with
  | [] => false
  | rule :: rules' =>
    if negb (str_eqb (rule_kind rule) (kind request)) then find_rule request rules'
    else
      let filePath :=
        or_else (or_else (path request) (fileName request)) (fullCommandText request) in
      if under filePath (pathPrefix rule) then true
      else if str_eqb (kind request) SHELL && str_eqb (rule_kind rule) SHELL then true
      else find_rule request rules'
  end.

(** [evaluate(request)]: [true] for [{ kind: "approved" }], [false] for
    [null], the user must decide. *)
Definition evaluate (request : PermissionRequest) (s : service) : bool :=
  let allow_all :=
    match cwd s with
    | Some dir =>
      allowAll s && truthy (cwd s)
      && (str_eqb (kind request) SHELL
          || under (or_else (path request) (fileName request)) dir
          || str_eqb (kind request) MCP)
    | None => false
    end in
  let read_under_cwd :=
    match cwd s with
    | Some dir =>
      str_eqb (kind request) READ && truthy (cwd s) && truthy (path request)
      && under (path request) dir
    | None => false
    end in
  if allow_all then true
  else if read_under_cwd then true
  else find_rule request (getRules s).

(** The branch [decision === "always"] of [handlePermissionDecision]: the
    rule saved for [request].  The [cwd] of the component is the one the
    service holds: the component copies it there ([cwd || null]) whenever
    it changes. *)
Definition always (request : PermissionRequest) (s : service) : service :=
  let chosen :=
    or_else (or_else (or_else (path request) (fileName request)) (cwd s))
            (Some SLASH) in
  match chosen with
  | Some pathPrefix =>
    addRule {| rule_kind := kind request; pathPrefix := pathPrefix |} s
  | None => s
  end.

End Permission.

(** The events that carry bytes of [child.stdout]. *)
Definition is_stdout (e : event) : bool :=
  match e with StdoutData _ _ => true | _ => false end.

Definition written (c : call) : list Buffer :=
  match c with StdinWrite data => [data] | _ => [] end.

(** What is written to [child.stdin], in order. *)
Definition stdin_writes (cs : list call) : list Buffer := flat_map written cs.

(* ------------------------------------------------------------------ *)
(** ** Vocabulary of the statements *)

(** Bytes without a carriage return, ASCII bytes, decimal digits. *)
Definition no_CR (bs : list byte) : Prop := Forall (fun b => b <> CR) bs.

Definition ascii_only (bs : list byte) : Prop :=
  Forall (fun b => (Byte.to_N b < 128)%N) bs.

Definition digit_byte (b : byte) : Prop := (48 <= Byte.to_N b <= 57)%N.

Definition no_CR_units (s : jsstring) : Prop := Forall (fun c => c <> 13%N) s.

(** The events that the child raises. *)
Definition from_child (e : event) : bool :=
  match e with ChildError | ChildExit _ => true | _ => false end.

(** A close or error event of the socket at which a signal no longer
    reaches the child: the child is gone. *)
Definition undelivered (e : event) : Prop :=
  e = WsClosed false \/ e = WsError false.

(* ------------------------------------------------------------------ *)
(** ** Sample instances and inputs *)

Definition bytes (s : string) : Buffer := list_byte_of_string s.

(** A stand-in for [JSON.parse]: a text in braces is an object, parsed to
    itself; any other text is refused. *)
Definition sample_parse (s : jsstring) : option jsstring :=
  match s with
  | 123%N :: rest => if (last rest 0 =? 125)%N then Some s else None
  | _ => None
  end.

(** The messages of the examples have no [method]: nothing is printed. *)
Definition sample_preview (json : jsstring) : option jsstring := None.

(** A stand-in for [new URL(input, base).pathname] on origin-form targets:
    a base with a space in its host is refused; the path is the target up
    to its query or fragment. *)
Fixpoint path_of (input : jsstring) : jsstring :=
  match input with
  | [] => []
  | c :: input' => if ((c =? 63) || (c =? 35))%N then [] else c :: path_of input'
  end.

Definition sample_pathname (input base : jsstring) : option jsstring :=
  if existsb (N.eqb 32) base then None else Some (path_of input).

(** The payload [{ "a" : 1 }] written without blanks, and the three chunks
    that cut its frame inside the delimiter and inside the payload. *)
Definition a1 : Buffer := [x7b; x22; x61; x22; x3a; x31; x7d].

Definition three_chunks : list Buffer :=
  [bytes "Content-Length: 7" ++ [CR];
   [LF; CR; LF] ++ [x7b; x22; x61; x22];
   [x3a; x31; x7d]].

(** A hundred and one frames of [{}] in one chunk. *)
Definition burst : list Buffer := repeat (bytes "{}") 101.

Definition garbage_then_frame : Buffer :=
  bytes "garbage" ++ CRLFCRLF ++ Frame.encode (bytes "{}").


(** The text of the reply to a user message, and the chat in which every
    user message has its reply, shown or waiting for its timer. *)
Definition echo (m : Chat.Message) : jsstring := Chat.YOU_SAID ++ Chat.text m.

Definition answers (st : Chat.state) : Prop :=
  map Chat.text (filter (Chat.from Chat.assistant) (Chat.messages st))
  ++ map echo (Chat.timers st)
  = map echo (filter (Chat.from Chat.user) (Chat.messages st)).

(** The rule that [addRule] saves. *)
Definition saved (rule : Permission.PermissionRule) : Permission.PermissionRule :=
  {| Permission.rule_kind := Permission.rule_kind rule;
     Permission.pathPrefix := Permission.normPath (Permission.pathPrefix rule) |}.

(** A stand-in for [JSON.stringify] on the messages of the examples, which
    are their own text. *)
Definition sample_stringify (msg : jsstring) : option jsstring := Some msg.

(** The object [{ e-acute : 1 }] written without blanks: one code unit outside ASCII, two bytes for it. *)
Definition e_acute : jsstring := [123; 34; 233; 34; 58; 49; 125]%N.

(** The requests and the services of the examples. *)
Definition request_for (kind : string) (path : option jsstring)
  : Permission.PermissionRequest :=
  {| Permission.kind := js kind; Permission.path := path;
     Permission.fileName := None; Permission.fullCommandText := None |}.

Definition service_in (allowAll : bool) (cwd : option jsstring)
  : Permission.service :=
  {| Permission.allowAll := allowAll; Permission.cwd := cwd;
     Permission.stored := Permission.NoItem |}.

(* ================================================================== *)
(** * Properties *)

Unset Implicit Arguments.

(* ------------------------------------------------------------------ *)
(** ** Searching a sequence *)

Section SeqFacts.
Variable A : Type.
Variable eqb : A -> A -> bool.

Local Abbreviation starts_with := (Seq.starts_with eqb).
Local Abbreviation indexOf := (Seq.indexOf eqb).

Lemma starts_with_app needle hay tail :
  starts_with needle hay = true -> starts_with needle (hay ++ tail) = true.
Proof.
  revert hay; induction needle as [|x needle IH]; intros [|y hay]; simpl; auto.
  - discriminate.
  - intros H; apply andb_true_iff in H as [Hx Hr].
    rewrite Hx; simpl; auto.
Qed.

Lemma starts_with_length needle hay :
  starts_with needle hay = true -> length needle <= length hay.
Proof.
  revert hay; induction needle as [|x needle IH]; intros [|y hay]; simpl;
    try lia; try discriminate.
  intros H; apply andb_true_iff in H as [_ Hr]; apply IH in Hr; lia.
Qed.

Lemma starts_with_app_inv needle hay tail :
  starts_with needle (hay ++ tail) = true -> length needle <= length hay ->
  starts_with needle hay = true.
Proof.
  revert hay; induction needle as [|x needle IH]; intros [|y hay]; simpl; auto.
  - lia.
  - intros H L; apply andb_true_iff in H as [Hx Hr].
    rewrite Hx; simpl; apply IH; auto; lia.
Qed.

Lemma indexOf_bound needle hay i :
  indexOf needle hay = Some i -> i + length needle <= length hay.
Proof.
  revert i; induction hay as [|y hay IH]; intros i; simpl.
  - destruct (starts_with needle []) eqn:E; [|discriminate].
    intros [= <-]; apply starts_with_length in E; simpl in *; lia.
  - destruct (starts_with needle (y :: hay)) eqn:E.
    + intros [= <-]; apply starts_with_length in E; simpl in *; lia.
    + destruct (indexOf needle hay) as [j|]; simpl; [|discriminate].
      intros [= <-]; specialize (IH j eq_refl); lia.
Qed.

(** The first occurrence stays the first when more data is appended. *)
Lemma indexOf_app needle hay tail i :
  indexOf needle hay = Some i -> indexOf needle (hay ++ tail) = Some i.
Proof.
  revert i; induction hay as [|y hay IH]; intros i.
  - simpl; destruct (starts_with needle []) eqn:E; [|discriminate].
    intros [= <-].
    destruct needle; [|discriminate].
    destruct tail; reflexivity.
  - cbn [Seq.indexOf app].
    destruct (starts_with needle (y :: hay)) eqn:E.
    + intros [= <-].
      change (y :: hay ++ tail) with ((y :: hay) ++ tail).
      rewrite (starts_with_app _ _ tail E); reflexivity.
    + destruct (indexOf needle hay) as [j|] eqn:Ej; simpl; [|discriminate].
      intros [= <-].
      destruct (starts_with needle (y :: hay ++ tail)) eqn:E'.
      * apply indexOf_bound in Ej.
        change (y :: hay ++ tail) with ((y :: hay) ++ tail) in E'.
        apply starts_with_app_inv in E'; [congruence | simpl; lia].
      * rewrite (IH j eq_refl); reflexivity.
Qed.

Lemma indexOf_short needle hay :
  length hay < length needle -> indexOf needle hay = None.
Proof.
  intros L; destruct (indexOf needle hay) as [i|] eqn:E; auto.
  apply indexOf_bound in E; lia.
Qed.
End SeqFacts.

(** A prefix of a concatenation of blocks is some of the blocks, whole,
    then a part of the next block that is not all of it. *)
Lemma split_concat (A X : Type) (enc : X -> list A) xs : forall arrived rest,
  arrived ++ rest = concat (map enc xs) ->
  exists done todo part,
    xs = done ++ todo /\ arrived = concat (map enc done) ++ part /\
    part ++ rest = concat (map enc todo) /\
    match todo with
    | [] => part = []
    | x :: _ => exists missing, missing <> [] /\ part ++ missing = enc x
    end.
Proof.
  induction xs as [|x xs IH]; intros arrived rest E.
  - apply app_eq_nil in E as [-> ->].
    exists [], [], []; repeat split.
  - cbn [map concat] in E.
    assert (whole : forall l, arrived = enc x ++ l -> l ++ rest = concat (map enc xs) ->
              exists done todo part,
                x :: xs = done ++ todo /\ arrived = concat (map enc done) ++ part /\
                part ++ rest = concat (map enc todo) /\
                match todo with
                | [] => part = []
                | y :: _ => exists missing, missing <> [] /\ part ++ missing = enc y
                end).
    { intros l El Er.
      destruct (IH l rest Er) as (done & todo & part & -> & -> & Ep & Hp).
      exists (x :: done), todo, part; repeat split; auto.
      rewrite El; cbn [map concat]; rewrite app_assoc; reflexivity. }
    apply app_eq_app in E as (l & [[Ea Er] | [Ee Er]]).
    + apply (whole l); auto.
    + destruct l as [|a l].
      * apply (whole []); [rewrite app_nil_r in *; auto | simpl in *; auto].
      * exists [], (x :: xs), arrived; repeat split; auto.
        -- cbn [map concat]; rewrite Ee, Er, <- app_assoc; reflexivity.
        -- exists (a :: l); split; [discriminate | auto].
Qed.

(* ------------------------------------------------------------------ *)
(** ** The delimiter in a buffer *)

Lemma starts_with_CRLFCRLF_no_CR b bs :
  b <> CR -> Seq.starts_with Byte.eqb CRLFCRLF (b :: bs) = false.
Proof.
  intros H; cbn [Seq.starts_with CRLFCRLF].
  destruct (Byte.eqb CR b) eqn:E; auto.
  apply Byte.byte_dec_bl in E; congruence.
Qed.

(** A block without a carriage return ends at the first delimiter. *)
Lemma indexOf_after_block block rest :
  no_CR block ->
  buffer_indexOf CRLFCRLF (block ++ CRLFCRLF ++ rest) = Some (length block).
Proof.
  unfold buffer_indexOf; induction 1 as [|b block Hb _ IH].
  - reflexivity.
  - cbn [app Seq.indexOf length].
    rewrite starts_with_CRLFCRLF_no_CR by assumption.
    rewrite IH; reflexivity.
Qed.

(** Before the delimiter is complete there is nothing to find. *)
Lemma indexOf_block_partial block part :
  no_CR block -> length part < 4 ->
  buffer_indexOf CRLFCRLF (block ++ part) = None.
Proof.
  unfold buffer_indexOf; intros Hb Hp; induction Hb as [|b block Hb _ IH].
  - apply indexOf_short; simpl; lia.
  - cbn [app Seq.indexOf].
    rewrite starts_with_CRLFCRLF_no_CR by assumption.
    rewrite IH; reflexivity.
Qed.

(* ------------------------------------------------------------------ *)
(** ** ASCII text: decoding, digits and the header pattern *)

Lemma toString_ascii bs : ascii_only bs -> Utf8.toString bs = js_of_bytes bs.
Proof.
  unfold Utf8.toString; induction 1 as [|b bs Hb _ IH]; simpl; auto.
  unfold Utf8.first_byte.
  apply N.ltb_lt in Hb; rewrite Hb; simpl; rewrite IH; reflexivity.
Qed.

Lemma decimal_digits_uint d : Forall digit_byte (Frame.bytes_of_uint d).
Proof.
  induction d; simpl; constructor; auto; unfold digit_byte; simpl; lia.
Qed.

Lemma decimal_digits n : Forall digit_byte (Frame.decimal n).
Proof. apply decimal_digits_uint. Qed.

Lemma decimal_nonempty n : Frame.decimal n <> [].
Proof.
  unfold Frame.decimal; destruct n as [|p]; simpl; [discriminate|].
  pose proof (DecimalPos.Unsigned.to_uint_nonnil p) as H.
  destruct (Pos.to_uint p); simpl; congruence.
Qed.

Lemma digit_byte_ascii b : digit_byte b -> (Byte.to_N b < 128)%N.
Proof. unfold digit_byte; lia. Qed.

Lemma digit_byte_not_CR b : digit_byte b -> b <> CR.
Proof. unfold digit_byte; intros H ->; simpl in H; lia. Qed.

Lemma header_ascii n : ascii_only (Frame.header n).
Proof.
  unfold Frame.header, ascii_only; apply Forall_app; split.
  - repeat constructor.
  - eapply Forall_impl; [|apply decimal_digits]; apply digit_byte_ascii.
Qed.

Lemma header_no_CR n : no_CR (Frame.header n).
Proof.
  unfold Frame.header, no_CR; apply Forall_app; split.
  - repeat (constructor; [discriminate|]); constructor.
  - eapply Forall_impl; [|apply decimal_digits]; apply digit_byte_not_CR.
Qed.

Lemma is_digit_byte b : digit_byte b -> Header.is_digit (Byte.to_N b) = true.
Proof.
  unfold digit_byte, Header.is_digit; intros [H1 H2].
  apply andb_true_iff; split; apply N.leb_le; assumption.
Qed.

Lemma is_space_digit c : Header.is_digit c = true -> Header.is_space c = false.
Proof.
  unfold Header.is_digit, Header.is_space; intros H.
  apply andb_true_iff in H as [H1 H2]; apply N.leb_le in H1, H2.
  repeat match goal with
  | |- (_ || _) = false => apply orb_false_iff; split
  | |- (_ && _) = false => apply andb_false_iff
  end;
  try (apply N.eqb_neq; lia);
  try (right; apply N.leb_gt; lia);
  try (left; apply N.leb_gt; lia).
Qed.

Lemma digits_all bs :
  Forall digit_byte bs -> Header.digits (js_of_bytes bs) = js_of_bytes bs.
Proof.
  induction 1 as [|b bs Hb _ IH]; simpl; auto.
  rewrite is_digit_byte, IH; auto.
Qed.

Lemma skip_spaces_digits bs :
  Forall digit_byte bs -> Header.skip_spaces (js_of_bytes bs) = js_of_bytes bs.
Proof.
  destruct 1 as [|b bs Hb _]; simpl; auto.
  rewrite is_space_digit; auto using is_digit_byte.
Qed.

(** [parseInt] reads back what [decimal] prints. *)
Lemma parseInt_acc d acc :
  fold_left (fun a c => (a * 10 + (c - 48))%N)
            (js_of_bytes (Frame.bytes_of_uint d)) (Npos acc)
  = Npos (Pos.of_uint_acc d acc).
Proof.
  revert acc; induction d; intros acc;
    cbn [Frame.bytes_of_uint js_of_bytes map fold_left Pos.of_uint_acc]; auto;
    fold (js_of_bytes (Frame.bytes_of_uint d));
    rewrite <- IHd; f_equal; cbn [Byte.to_N];
    lia.
Qed.

Lemma parseInt_uint d :
  Header.parseInt (js_of_bytes (Frame.bytes_of_uint d)) = N.of_uint d.
Proof.
  unfold Header.parseInt, N.of_uint.
  induction d;
    cbn [Frame.bytes_of_uint js_of_bytes map fold_left Pos.of_uint]; auto;
    fold (js_of_bytes (Frame.bytes_of_uint d));
    rewrite <- parseInt_acc; reflexivity.
Qed.

Lemma parseInt_decimal n : Header.parseInt (js_of_bytes (Frame.decimal n)) = n.
Proof. unfold Frame.decimal; rewrite parseInt_uint; apply DecimalN.Unsigned.of_to. Qed.

Lemma match_content_length_here s ds :
  Header.match_here s = Some ds -> Header.match_content_length s = Some ds.
Proof. destruct s; cbn [Header.match_content_length]; intros ->; reflexivity. Qed.

(** The pattern finds the length that the header of a frame declares. *)
Lemma match_header n :
  Header.match_content_length (js_of_bytes (Frame.header n))
  = Some (js_of_bytes (Frame.decimal n)).
Proof.
  apply match_content_length_here.
  unfold Frame.header, js_of_bytes; rewrite map_app.
  unfold Header.match_here.
  change (Header.literal Header.PATTERN
            (map Byte.to_N Frame.FIELD ++ map Byte.to_N (Frame.decimal n)))
    with (Some (32%N :: map Byte.to_N (Frame.decimal n))).
  cbn [Header.skip_spaces].
  change (Header.is_space 32%N) with true; cbv iota.
  fold (js_of_bytes (Frame.decimal n)).
  rewrite skip_spaces_digits, digits_all by apply decimal_digits.
  pose proof (decimal_nonempty n) as Hne.
  destruct (Frame.decimal n); [congruence | reflexivity].
Qed.

(* ------------------------------------------------------------------ *)
(** ** One turn of the decoding loop *)

Lemma sends_app a b : sends (a ++ b) = sends a ++ sends b.
Proof. unfold sends; apply flat_map_app. Qed.

Lemma kills_app a b : kills (a ++ b) = kills a + kills b.
Proof. unfold kills; rewrite filter_app, length_app; reflexivity. Qed.

Lemma firstn_exact (A : Type) (a b : list A) : firstn (length a) (a ++ b) = a.
Proof. induction a; simpl; congruence. Qed.

Lemma skipn_exact (A : Type) (a b : list A) : skipn (length a) (a ++ b) = b.
Proof. induction a; simpl; congruence. Qed.

Lemma skipn_past (A : Type) (a b : list A) m :
  skipn (length a + m) (a ++ b) = skipn m b.
Proof. induction a; simpl; congruence. Qed.

Lemma firstn_add (A : Type) a b : forall l : list A,
  firstn (a + b) l = firstn a l ++ firstn b (skipn a l).
Proof.
  induction a as [|a IH]; intros [|x l]; simpl; auto.
  - rewrite firstn_nil; reflexivity.
  - rewrite IH; reflexivity.
Qed.

Lemma encode_length payload :
  length (Frame.encode payload)
  = length (Frame.header (N.of_nat (length payload))) + 4 + length payload.
Proof. unfold Frame.encode; rewrite !length_app; simpl; lia. Qed.

Lemma encode_nonempty payload : Frame.encode payload <> [].
Proof. discriminate. Qed.

Section ProxyFacts.
Variable JSON : Type.
Variable JSON_parse : jsstring -> option JSON.
Variable preview : JSON -> option jsstring.

Local Abbreviation drain := (Proxy.drain JSON_parse preview).
Local Abbreviation log_message := (Proxy.log_message JSON_parse preview).
Local Abbreviation frame_calls := (Proxy.frame_calls JSON_parse preview).
Local Abbreviation frames_calls := (Proxy.frames_calls JSON_parse preview).

Lemma drain_no_delimiter fuel rs buffer :
  buffer_indexOf CRLFCRLF buffer = None -> drain fuel rs buffer = ([], buffer).
Proof. intros H; destruct fuel; cbn [Proxy.drain]; [|rewrite H]; reflexivity. Qed.

Lemma drain_skip fuel rs buffer headerEnd :
  buffer_indexOf CRLFCRLF buffer = Some headerEnd ->
  Header.match_content_length (Utf8.toString (firstn headerEnd buffer)) = None ->
  drain (S fuel) rs buffer = drain fuel rs (skipn (headerEnd + 4) buffer).
Proof. intros H1 H2; cbn [Proxy.drain]; rewrite H1, H2; reflexivity. Qed.

Lemma drain_wait fuel rs buffer headerEnd ds :
  buffer_indexOf CRLFCRLF buffer = Some headerEnd ->
  Header.match_content_length (Utf8.toString (firstn headerEnd buffer)) = Some ds ->
  (N.of_nat (length buffer) < N.of_nat headerEnd + 4 + Header.parseInt ds)%N ->
  drain fuel rs buffer = ([], buffer).
Proof.
  intros H1 H2 H3; destruct fuel; cbn [Proxy.drain]; auto.
  rewrite H1, H2.
  apply N.ltb_lt in H3; rewrite H3; reflexivity.
Qed.

Lemma drain_message fuel rs buffer headerEnd ds :
  buffer_indexOf CRLFCRLF buffer = Some headerEnd ->
  Header.match_content_length (Utf8.toString (firstn headerEnd buffer)) = Some ds ->
  let messageEnd := (N.of_nat headerEnd + 4 + Header.parseInt ds)%N in
  (messageEnd <= N.of_nat (length buffer))%N ->
  drain (S fuel) rs buffer
  = (log_message headerEnd (firstn (N.to_nat messageEnd) buffer)
     ++ Proxy.forward rs (firstn (N.to_nat messageEnd) buffer)
     ++ fst (drain fuel rs (skipn (N.to_nat messageEnd) buffer)),
     snd (drain fuel rs (skipn (N.to_nat messageEnd) buffer))).
Proof.
  intros H1 H2 messageEnd H3; cbn [Proxy.drain]; rewrite H1, H2.
  fold messageEnd.
  apply N.ltb_ge in H3; rewrite H3.
  destruct (Proxy.drain _ _ fuel rs _); reflexivity.
Qed.

(** A frame at the head of the buffer is extracted whole. *)
Lemma drain_frame fuel rs payload rest :
  drain (S fuel) rs (Frame.encode payload ++ rest)
  = (frame_calls rs payload ++ fst (drain fuel rs rest), snd (drain fuel rs rest)).
Proof.
  set (n := N.of_nat (length payload)).
  assert (Hi : buffer_indexOf CRLFCRLF (Frame.encode payload ++ rest)
               = Some (length (Frame.header n))).
  { unfold Frame.encode; fold n; rewrite <- !app_assoc.
    apply indexOf_after_block, header_no_CR. }
  assert (Hh : firstn (length (Frame.header n)) (Frame.encode payload ++ rest)
               = Frame.header n).
  { unfold Frame.encode; fold n; rewrite <- !app_assoc.
    apply firstn_exact. }
  assert (Hm : Header.match_content_length
                 (Utf8.toString (firstn (length (Frame.header n))
                                        (Frame.encode payload ++ rest)))
               = Some (js_of_bytes (Frame.decimal n))).
  { rewrite Hh, toString_ascii by apply header_ascii; apply match_header. }
  assert (He : N.to_nat (N.of_nat (length (Frame.header n)) + 4
                         + Header.parseInt (js_of_bytes (Frame.decimal n)))
               = length (Frame.encode payload)).
  { rewrite parseInt_decimal, encode_length; fold n; unfold n; lia. }
  rewrite (drain_message fuel rs _ _ _ Hi Hm).
  - rewrite He, firstn_exact, skipn_exact.
    unfold Proxy.frame_calls; fold n; rewrite <- app_assoc; reflexivity.
  - rewrite parseInt_decimal, length_app, encode_length; fold n; unfold n; lia.
Qed.


Lemma sends_log_message headerEnd message : sends (log_message headerEnd message) = [].
Proof.
  unfold Proxy.log_message.
  destruct (JSON_parse _) as [json|]; auto; destruct (preview json); auto.
Qed.

Lemma sends_frame_calls rs payload :
  sends (frame_calls rs payload)
  = if is_open rs then [Frame.encode payload] else [].
Proof.
  unfold Proxy.frame_calls; rewrite sends_app, sends_log_message.
  unfold Proxy.forward; destruct (is_open rs); reflexivity.
Qed.

(* ---------------------------------------------------------------- *)
(** ** A buffer that starts with whole frames *)

Lemma sends_frames_calls rs payloads :
  sends (frames_calls rs payloads)
  = if is_open rs then map Frame.encode payloads else [].
Proof.
  induction payloads as [|p ps IH]; simpl.
  - destruct (is_open rs); reflexivity.
  - rewrite sends_app, sends_frame_calls, IH; destruct (is_open rs); reflexivity.
Qed.

Lemma stream_app a b : Frame.stream (a ++ b) = Frame.stream a ++ Frame.stream b.
Proof. unfold Frame.stream; rewrite map_app, concat_app; reflexivity. Qed.

(** The loop extracts the frames at the head of the buffer one per turn,
    and goes on with what follows them if it has turns left. *)
Lemma drain_frames payloads fuel rs rest :
  let fuel' := fuel - length payloads in
  let buffer' := Frame.stream (skipn fuel payloads) ++ rest in
  drain fuel rs (Frame.stream payloads ++ rest)
  = (frames_calls rs (firstn fuel payloads) ++ fst (drain fuel' rs buffer'),
     snd (drain fuel' rs buffer')).
Proof.
  revert fuel; induction payloads as [|p ps IH]; intros fuel; cbv zeta.
  - rewrite firstn_nil, skipn_nil, Nat.sub_0_r; simpl.
    destruct (Proxy.drain _ _ fuel rs rest); reflexivity.
  - destruct fuel as [|fuel]; [reflexivity|].
    change (Frame.stream (p :: ps)) with (Frame.encode p ++ Frame.stream ps).
    rewrite <- app_assoc, drain_frame, IH.
    cbn [fst snd firstn skipn length Nat.sub Proxy.frames_calls flat_map].
    rewrite <- app_assoc; reflexivity.
Qed.

(** Nothing is extracted, and nothing dropped, while a frame is
    incomplete: the delimiter or a part of the payload is missing. *)
Lemma drain_partial fuel rs part payload :
  Frame.partial_frame part payload -> drain fuel rs part = ([], part).
Proof.
  intros (missing & Hne & E); unfold Frame.encode in E.
  set (n := N.of_nat (length payload)) in *.
  rewrite app_assoc in E.
  apply app_eq_app in E as (l & [[Eq Ep] | [Eh Em]]).
  - (* header and delimiter are there, payload bytes are missing *)
    subst part.
    rewrite <- app_assoc.
    eapply drain_wait.
    + apply indexOf_after_block, header_no_CR.
    + rewrite firstn_exact, toString_ascii by apply header_ascii.
      apply match_header.
    + assert (length l < length payload)
        by (rewrite Ep, length_app; destruct missing; [congruence | simpl; lia]).
      rewrite parseInt_decimal, !length_app.
      change (length CRLFCRLF) with 4; unfold n; lia.
  - destruct l as [|x l].
    + (* exactly header and delimiter *)
      rewrite app_nil_r in Eh; subst part; simpl in Em; subst missing.
      replace (Frame.header n ++ CRLFCRLF)
        with (Frame.header n ++ CRLFCRLF ++ []) by reflexivity.
      eapply drain_wait.
      * apply indexOf_after_block, header_no_CR.
      * rewrite firstn_exact, toString_ascii by apply header_ascii.
        apply match_header.
      * assert (0 < length payload) by (destruct payload; [congruence | simpl; lia]).
        rewrite parseInt_decimal, !length_app.
        change (length CRLFCRLF) with 4; unfold n; simpl length; lia.
    + (* the delimiter is not complete *)
      apply drain_no_delimiter.
      symmetry in Eh; apply app_eq_app in Eh as (l' & [[Eq Ec] | [Eh Ec]]).
      * subst part; apply indexOf_block_partial; [apply header_no_CR|].
        apply (f_equal (@length byte)) in Ec; rewrite length_app in Ec.
        simpl in Ec; lia.
      * rewrite <- (app_nil_r part); apply indexOf_block_partial; [|simpl; lia].
        pose proof (header_no_CR n) as H; rewrite Eh in H.
        apply Forall_app in H; tauto.
Qed.

Lemma drain_pending fuel rs part todo :
  Frame.pending part todo -> drain fuel rs part = ([], part).
Proof.
  destruct todo; simpl.
  - intros ->; apply drain_no_delimiter; reflexivity.
  - apply drain_partial.
Qed.

Lemma split_stream payloads arrived rest :
  arrived ++ rest = Frame.stream payloads ->
  exists done todo part,
    payloads = done ++ todo /\ arrived = Frame.stream done ++ part /\
    part ++ rest = Frame.stream todo /\ Frame.pending part todo.
Proof. apply split_concat. Qed.

(** One chunk event on a buffer made of whole frames and the beginning of
    the next: the first hundred frames are extracted, the rest stays. *)
Lemma drain_stream rs done part todo :
  Frame.pending part todo ->
  drain Proxy.MAX_ITERATIONS rs (Frame.stream done ++ part)
  = (frames_calls rs (firstn Proxy.MAX_ITERATIONS done),
     Frame.stream (skipn Proxy.MAX_ITERATIONS done) ++ part).
Proof.
  intros Hp; rewrite drain_frames.
  destruct (Nat.le_gt_cases (length done) Proxy.MAX_ITERATIONS) as [L|L].
  - rewrite skipn_all2 by assumption.
    cbn [Frame.stream map concat app].
    rewrite (drain_pending _ rs part todo Hp).
    rewrite app_nil_r; reflexivity.
  - replace (Proxy.MAX_ITERATIONS - length done) with 0 by lia.
    cbn [Proxy.drain fst snd]; rewrite app_nil_r; reflexivity.
Qed.

(* ---------------------------------------------------------------- *)
(** ** Chunks of [child.stdout], one event after the other *)

Local Abbreviation on_stdout_data := (Proxy.on_stdout_data JSON_parse preview).
Local Abbreviation feed := (Proxy.feed JSON_parse preview).
Local Abbreviation run := (Proxy.run JSON_parse preview).
Local Abbreviation handle := (Proxy.handle JSON_parse preview).

Lemma run_cons e es st :
  run (e :: es) st
  = (fst (handle e st) ++ fst (run es (snd (handle e st))),
     snd (run es (snd (handle e st)))).
Proof.
  cbn [Proxy.run].
  destruct (Proxy.handle _ _ e st) as [calls st']; cbn [fst snd].
  destruct (Proxy.run _ _ es st'); reflexivity.
Qed.

Lemma feed_cons rs chunk chunks st :
  feed rs (chunk :: chunks) st
  = (fst (on_stdout_data rs chunk st)
     ++ fst (feed rs chunks (snd (on_stdout_data rs chunk st))),
     snd (feed rs chunks (snd (on_stdout_data rs chunk st)))).
Proof.
  unfold Proxy.feed; cbn [map]; rewrite run_cons.
  cbn [Proxy.handle]; reflexivity.
Qed.

Lemma on_stdout_data_stream rs data st done part todo :
  buffer st ++ data = Frame.stream done ++ part ->
  Frame.pending part todo ->
  on_stdout_data rs data st
  = (frames_calls rs (firstn Proxy.MAX_ITERATIONS done),
     {| buffer := Frame.stream (skipn Proxy.MAX_ITERATIONS done) ++ part;
        killed := killed st |}).
Proof.
  intros E Hp; unfold Proxy.on_stdout_data.
  rewrite E, drain_stream with (todo := todo) by assumption; reflexivity.
Qed.

(** Whatever the chunk boundaries, what has been sent is a prefix of the
    frames written, in their order, and the buffer holds the bytes of the
    others, all of them. *)
Lemma feed_in_order chunks : forall st payloads,
  buffer st ++ concat chunks = Frame.stream payloads ->
  exists m,
    sends (fst (feed OPEN chunks st)) = map Frame.encode (firstn m payloads) /\
    buffer (snd (feed OPEN chunks st)) = Frame.stream (skipn m payloads).
Proof.
  induction chunks as [|chunk chunks IH]; intros st payloads E.
  - exists 0; simpl in *; rewrite app_nil_r in E; auto.
  - cbn [concat] in E; rewrite app_assoc in E.
    destruct (split_stream _ _ _ E) as (done & todo & part & Ep & Ea & Er & Hp).
    rewrite feed_cons, (on_stdout_data_stream OPEN _ _ _ _ _ Ea Hp); cbn [fst snd].
    set (st' := {| buffer := _; killed := _ |}).
    destruct (IH st' (skipn Proxy.MAX_ITERATIONS done ++ todo)) as (m & Hs & Hb).
    { unfold st'; cbn [buffer].
      rewrite <- app_assoc, Er, stream_app; reflexivity. }
    exists (length (firstn Proxy.MAX_ITERATIONS done) + m).
    assert (Es : payloads = firstn Proxy.MAX_ITERATIONS done
                            ++ (skipn Proxy.MAX_ITERATIONS done ++ todo))
      by (rewrite app_assoc, firstn_skipn; assumption).
    rewrite sends_app, sends_frames_calls, Hs, Hb; cbn [is_open].
    rewrite Es.
    rewrite firstn_app_2, map_app, skipn_past; split; reflexivity.
Qed.

Lemma not_partial_of_whole payload rest :
  ~ Frame.partial_frame (Frame.encode payload ++ rest) payload.
Proof.
  intros (missing & Hne & E).
  apply (f_equal (@length byte)) in E; rewrite !length_app in E.
  destruct missing; [congruence | simpl in E; lia].
Qed.

(** With no more frames than the loop has turns, every frame is sent as
    soon as its last byte arrives. *)
Lemma feed_complete chunks : forall st payloads,
  Frame.pending (buffer st) payloads ->
  buffer st ++ concat chunks = Frame.stream payloads ->
  length payloads <= Proxy.MAX_ITERATIONS ->
  sends (fst (feed OPEN chunks st)) = map Frame.encode payloads /\
  buffer (snd (feed OPEN chunks st)) = [].
Proof.
  induction chunks as [|chunk chunks IH]; intros st payloads Hp E L.
  - simpl in E; rewrite app_nil_r in E.
    destruct payloads as [|p ps]; [simpl in *; auto|].
    exfalso; simpl in Hp; rewrite E in Hp.
    apply (not_partial_of_whole _ _ Hp).
  - cbn [concat] in E; rewrite app_assoc in E.
    destruct (split_stream _ _ _ E) as (done & todo & part & -> & Ea & Er & Hq).
    rewrite length_app in L.
    rewrite feed_cons, (on_stdout_data_stream OPEN _ _ _ _ _ Ea Hq); cbn [fst snd].
    rewrite firstn_all2, skipn_all2 by lia.
    set (st' := {| buffer := _; killed := _ |}).
    destruct (IH st' todo) as (Hs & Hb); [exact Hq | exact Er | lia |].
    rewrite sends_app, sends_frames_calls, Hs, Hb, map_app; auto.
Qed.

Lemma run_app es1 : forall es2 st,
  run (es1 ++ es2) st
  = (fst (run es1 st) ++ fst (run es2 (snd (run es1 st))),
     snd (run es2 (snd (run es1 st)))).
Proof.
  induction es1 as [|e es1 IH]; intros es2 st.
  - cbn [app Proxy.run fst snd]; destruct (Proxy.run _ _ es2 st); reflexivity.
  - cbn [app]; rewrite !run_cons, IH; cbn [fst snd].
    rewrite app_assoc; reflexivity.
Qed.

Lemma feed_app rs chunks1 chunks2 st :
  feed rs (chunks1 ++ chunks2) st
  = (fst (feed rs chunks1 st) ++ fst (feed rs chunks2 (snd (feed rs chunks1 st))),
     snd (feed rs chunks2 (snd (feed rs chunks1 st)))).
Proof. unfold Proxy.feed; rewrite map_app; apply run_app. Qed.

(** Chunk events that bring nothing still drain the buffer, a hundred
    frames each. *)
Lemma feed_empty_chunks k : forall st payloads,
  buffer st = Frame.stream payloads ->
  sends (fst (feed OPEN (repeat [] k) st))
  = map Frame.encode (firstn (Proxy.MAX_ITERATIONS * k) payloads) /\
  buffer (snd (feed OPEN (repeat [] k) st))
  = Frame.stream (skipn (Proxy.MAX_ITERATIONS * k) payloads).
Proof.
  induction k as [|k IH]; intros st payloads E.
  - rewrite Nat.mul_0_r; simpl; auto.
  - cbn [repeat]; rewrite feed_cons.
    assert (Ea : buffer st ++ [] = Frame.stream payloads ++ [])
      by (rewrite E; reflexivity).
    rewrite (on_stdout_data_stream OPEN [] st payloads [] [] Ea eq_refl).
    cbn [fst snd]; rewrite app_nil_r.
    set (st' := {| buffer := _; killed := _ |}).
    destruct (IH st' (skipn Proxy.MAX_ITERATIONS payloads) eq_refl) as [Hs Hb].
    rewrite sends_app, sends_frames_calls, Hs, Hb; cbn [is_open].
    replace (Proxy.MAX_ITERATIONS * S k)
      with (Proxy.MAX_ITERATIONS + Proxy.MAX_ITERATIONS * k) by lia.
    rewrite firstn_add, map_app, skipn_skipn.
    replace (Proxy.MAX_ITERATIONS * k + Proxy.MAX_ITERATIONS)
      with (Proxy.MAX_ITERATIONS + Proxy.MAX_ITERATIONS * k) by lia.
    split; reflexivity.
Qed.

(* ---------------------------------------------------------------- *)
(** ** What the loop does on any buffer *)

Lemma kills_log_message headerEnd message : kills (log_message headerEnd message) = 0.
Proof.
  unfold Proxy.log_message.
  destruct (JSON_parse _) as [json|]; auto; destruct (preview json); auto.
Qed.

Lemma kills_forward rs message : kills (Proxy.forward rs message) = 0.
Proof. unfold Proxy.forward; destruct (is_open rs); reflexivity. Qed.

Ltac drain_turn :=
  cbn [Proxy.drain];
  repeat match goal with
  | |- context [match ?x with _ => _ end] =>
    lazymatch x with
    | buffer_indexOf _ _ => destruct x
    | Header.match_content_length _ => destruct x
    | N.ltb _ _ => destruct x
    end
  end.

(** The loop never calls [child.kill()]. *)
Lemma kills_drain fuel : forall rs buffer, kills (fst (drain fuel rs buffer)) = 0.
Proof.
  induction fuel as [|fuel IH]; intros rs buffer; [reflexivity|].
  drain_turn; auto.
  match goal with |- context [Proxy.drain _ _ fuel rs ?b] =>
    specialize (IH rs b); destruct (Proxy.drain _ _ fuel rs b) end.
  cbn [fst] in *.
  rewrite !kills_app, kills_log_message, kills_forward; auto.
Qed.



(** At most one send per turn. *)
Lemma drain_sends_bound fuel : forall rs buffer,
  length (sends (fst (drain fuel rs buffer))) <= fuel.
Proof.
  induction fuel as [|fuel IH]; intros rs buffer; [simpl; lia|].
  drain_turn; try (simpl; lia); auto.
  match goal with |- context [Proxy.drain _ _ fuel rs ?b] =>
    specialize (IH rs b); destruct (Proxy.drain _ _ fuel rs b) end.
  cbn [fst] in *.
  rewrite !sends_app, sends_log_message, !length_app.
  unfold Proxy.forward; destruct (is_open rs); simpl; lia.
Qed.

(* ---------------------------------------------------------------- *)
(** ** The frame decoder of the proxy *)

(** C1, as amended.  Frames written one after the other and cut into
    chunks at arbitrary places (inside a header, the delimiter or a
    payload), delivered in order while the socket is open: what the proxy
    sends is always the first [m] frames, verbatim (header, delimiter and
    payload) and in order, while the bytes of the others are all in the
    buffer, none lost and none doubled.  With at most a hundred frames, the
    turns of one chunk event, every frame is sent and the buffer ends
    empty; with more, the frames left in the buffer are sent by the chunk
    events that follow, a hundred each, even if they bring no byte. *)
Theorem framing_round_trip_within_cap payloads chunks :
  concat chunks = Frame.stream payloads ->
  (exists m,
     sends (fst (feed OPEN chunks connected))
     = map Frame.encode (firstn m payloads) /\
     buffer (snd (feed OPEN chunks connected))
     = Frame.stream (skipn m payloads)) /\
  (length payloads <= Proxy.MAX_ITERATIONS ->
   sends (fst (feed OPEN chunks connected)) = map Frame.encode payloads /\
   buffer (snd (feed OPEN chunks connected)) = []) /\
  (forall k, length payloads <= Proxy.MAX_ITERATIONS * k ->
   sends (fst (feed OPEN (chunks ++ repeat [] k) connected))
   = map Frame.encode payloads /\
   buffer (snd (feed OPEN (chunks ++ repeat [] k) connected)) = []).
Proof.
  intros E.
  destruct (feed_in_order chunks connected payloads E) as (m & Hs & Hb).
  split; [exists m; auto|]; split.
  - intros L; apply feed_complete; auto.
    destruct payloads as [|p ps]; simpl; auto.
    exists (Frame.encode p); split; [apply encode_nonempty | reflexivity].
  - intros k L; rewrite feed_app; cbn [fst snd].
    destruct (feed_empty_chunks k _ _ Hb) as [Hs' Hb'].
    rewrite sends_app, Hs, Hs', Hb', <- map_app.
    assert (Ll : length (skipn m payloads) <= Proxy.MAX_ITERATIONS * k)
      by (rewrite length_skipn; lia).
    rewrite (firstn_all2 _ Ll), (skipn_all2 _ Ll), firstn_skipn.
    split; reflexivity.
Qed.


(** When the buffer starts with a header block in which the pattern finds
    no length, followed by the delimiter and by a complete frame, the
    handler drops the block and its delimiter and nothing else: it sends
    exactly one message, the frame, and the buffer is empty.  The handler is
    a total function: no input makes it throw. *)
Lemma proxy_skips_malformed_header st data headerEnd payload :
  let held := buffer st ++ data in
  buffer_indexOf CRLFCRLF held = Some headerEnd ->
  Header.match_content_length (Utf8.toString (firstn headerEnd held)) = None ->
  skipn (headerEnd + 4) held = Frame.encode payload ->
  sends (fst (on_stdout_data OPEN data st)) = [Frame.encode payload] /\
  buffer (snd (on_stdout_data OPEN data st)) = [].
Proof.
  intros held Hi Hm Hf.
  unfold Proxy.on_stdout_data; fold held.
  change Proxy.MAX_ITERATIONS with (S (S 98)).
  rewrite (drain_skip _ OPEN held headerEnd Hi Hm), Hf.
  pose proof (drain_frame 98 OPEN payload []) as Hd.
  rewrite app_nil_r, (drain_no_delimiter 98 OPEN [] eq_refl) in Hd.
  rewrite Hd; cbn [fst snd buffer].
  rewrite app_nil_r, sends_frame_calls; split; reflexivity.
Qed.

(** When the buffer starts with more whole frames than the hundred turns of
    the loop, one chunk event sends the first hundred frames, in order, and
    leaves the bytes of all the others in the buffer; the next chunk event,
    whatever it brings, goes on with the frames that were left.  No chunk
    event ever sends more than a hundred messages. *)
Lemma proxy_stops_at_the_cap st data payloads rest :
  buffer st ++ data = Frame.stream payloads ++ rest ->
  Proxy.MAX_ITERATIONS < length payloads ->
  let left := skipn Proxy.MAX_ITERATIONS payloads in
  sends (fst (on_stdout_data OPEN data st))
  = map Frame.encode (firstn Proxy.MAX_ITERATIONS payloads) /\
  buffer (snd (on_stdout_data OPEN data st)) = Frame.stream left ++ rest /\
  (forall data', exists more,
     sends (fst (on_stdout_data OPEN data' (snd (on_stdout_data OPEN data st))))
     = map Frame.encode (firstn Proxy.MAX_ITERATIONS left) ++ more) /\
  (forall rs' data' st',
     length (sends (fst (on_stdout_data rs' data' st'))) <= Proxy.MAX_ITERATIONS).
Proof.
  intros E L left.
  assert (E1 : on_stdout_data OPEN data st
               = (frames_calls OPEN (firstn Proxy.MAX_ITERATIONS payloads),
                  {| buffer := Frame.stream left ++ rest; killed := killed st |})).
  { unfold Proxy.on_stdout_data; rewrite E, drain_frames.
    replace (Proxy.MAX_ITERATIONS - length payloads) with 0 by lia.
    cbn [Proxy.drain fst snd]; rewrite app_nil_r; reflexivity. }
  rewrite E1; cbn [fst snd buffer].
  rewrite sends_frames_calls; cbn [is_open].
  split; [reflexivity|]; split; [reflexivity|]; split.
  - intros data'; unfold Proxy.on_stdout_data; cbn [buffer killed].
    rewrite <- app_assoc, drain_frames.
    destruct (Proxy.drain _ _ _ _ _) as [calls buffer']; cbn [fst].
    exists (sends calls).
    rewrite sends_app, sends_frames_calls; reflexivity.
  - intros rs' data' st'; unfold Proxy.on_stdout_data.
    pose proof (drain_sends_bound Proxy.MAX_ITERATIONS rs' (buffer st' ++ data')).
    destruct (Proxy.drain _ _ _ _ _); assumption.
Qed.



(* ---------------------------------------------------------------- *)
(** ** Lifecycle: close codes and the kill guard *)

Lemma closes_app a b : closes (a ++ b) = closes a ++ closes b.
Proof. unfold closes; apply flat_map_app. Qed.

Lemma closes_drain fuel : forall rs buffer, closes (fst (drain fuel rs buffer)) = [].
Proof.
  induction fuel as [|fuel IH]; intros rs buffer; [reflexivity|].
  drain_turn; auto.
  match goal with |- context [Proxy.drain _ _ fuel rs ?b] =>
    specialize (IH rs b); destruct (Proxy.drain _ _ fuel rs b) end.
  cbn [fst] in *; rewrite !closes_app, IH.
  unfold Proxy.log_message, Proxy.forward.
  destruct (JSON_parse _) as [json|]; [destruct (preview json)|];
    destruct (is_open rs); reflexivity.
Qed.

Lemma closes_kill_child delivered st : closes (fst (kill_child delivered st)) = [].
Proof. unfold kill_child; destruct (killed st); reflexivity. Qed.

Lemma closes_write_stdin data st : closes (fst (write_stdin data st)) = [].
Proof. unfold write_stdin; destruct (killed st); reflexivity. Qed.

(** C6.  When the child exits, whatever its exit code, the handler closes
    the socket with code 1000; when the child reports an error, a failed
    spawn included, with code 1011.  The codes differ, both proxies use the
    same ones, and no other handler closes the socket. *)
Theorem close_code_discrimination st code :
  closes (fst (handle (ChildExit code) st)) = [(1000%N, "Child process exited"%string)] /\
  closes (fst (handle ChildError st)) = [(1011%N, "Child process error"%string)] /\
  closes (fst (RawProxy.handle (ChildExit code) st))
  = [(1000%N, "Child process exited"%string)] /\
  closes (fst (RawProxy.handle ChildError st))
  = [(1011%N, "Child process error"%string)] /\
  NORMAL_CLOSURE <> INTERNAL_ERROR /\
  (forall e, from_child e = false ->
     closes (fst (handle e st)) = [] /\ closes (fst (RawProxy.handle e st)) = []).
Proof.
  repeat split; try reflexivity; try discriminate.
  - destruct e; try discriminate; cbn [Proxy.handle]; auto using
      closes_kill_child, closes_write_stdin.
    unfold Proxy.on_stdout_data.
    pose proof (closes_drain Proxy.MAX_ITERATIONS readyState (buffer st ++ data)).
    destruct (Proxy.drain _ _ _ _ _); assumption.
  - destruct e; try discriminate; cbn [RawProxy.handle]; auto using
      closes_kill_child, closes_write_stdin.
    unfold RawProxy.on_stdout_data; destruct (is_open readyState); reflexivity.
Qed.

Lemma handle_killed e st :
  killed st = true ->
  kills (fst (handle e st)) = 0 /\ killed (snd (handle e st)) = true.
Proof.
  intros K; destruct e; cbn [Proxy.handle]; auto.
  - unfold Proxy.on_stdout_data.
    pose proof (kills_drain Proxy.MAX_ITERATIONS readyState (buffer st ++ data)).
    destruct (Proxy.drain _ _ _ _ _); auto.
  - unfold write_stdin; rewrite K; auto.
  - unfold kill_child; rewrite K; auto.
  - unfold kill_child; rewrite K; auto.
Qed.

(** Once [child.killed] is set no handler calls [child.kill()]. *)
Lemma run_killed es : forall st,
  killed st = true -> kills (fst (run es st)) = 0.
Proof.
  induction es as [|e es IH]; intros st K; [reflexivity|].
  rewrite run_cons; cbn [fst].
  destruct (handle_killed e st K) as [H0 K'].
  rewrite kills_app, H0, (IH _ K'); reflexivity.
Qed.

Lemma raw_handle_killed e st :
  killed st = true ->
  kills (fst (RawProxy.handle e st)) = 0 /\ killed (snd (RawProxy.handle e st)) = true.
Proof.
  intros K; destruct e; cbn [RawProxy.handle]; auto.
  - unfold RawProxy.on_stdout_data; destruct (is_open readyState); auto.
  - unfold write_stdin; rewrite K; auto.
  - unfold kill_child; rewrite K; auto.
  - unfold kill_child; rewrite K; auto.
Qed.

Lemma raw_run_killed es : forall st,
  killed st = true -> kills (fst (RawProxy.run es st)) = 0.
Proof.
  induction es as [|e es IH]; intros st K; [reflexivity|].
  cbn [RawProxy.run].
  destruct (raw_handle_killed e st K) as [H0 K'].
  destruct (RawProxy.handle e st) as [calls st']; cbn [fst snd] in *.
  specialize (IH st' K').
  destruct (RawProxy.run es st'); cbn [fst] in *.
  rewrite kills_app, H0, IH; reflexivity.
Qed.

(** On the close event of the socket (or on its error event, which has the
    same handler), with a child not yet killed that the signal reaches, the
    handler calls [child.kill()] once; [child.killed] is then set, and
    whatever events follow (close and error events of the socket among
    them) no handler calls [child.kill()] again.  In both proxies. *)
Lemma kill_once_when_delivered st first later :
  killed st = false ->
  first = WsClosed true \/ first = WsError true ->
  fst (handle first st) = [ChildKill] /\
  kills (fst (run later (snd (handle first st)))) = 0 /\
  fst (RawProxy.handle first st) = [ChildKill] /\
  kills (fst (RawProxy.run later (snd (RawProxy.handle first st)))) = 0.
Proof.
  intros K [-> | ->]; cbn [Proxy.handle RawProxy.handle];
    unfold kill_child; rewrite K; cbn [fst snd];
    (split; [reflexivity|]; split; [apply run_killed; reflexivity|];
     split; [reflexivity | apply raw_run_killed; reflexivity]).
Qed.

(** Against a child that is gone [child.kill()] delivers nothing and
    [child.killed] stays unset: every close or error event calls it again. *)
Lemma kill_again_when_undelivered es : forall st,
  killed st = false -> Forall undelivered es ->
  run es st = (map (fun _ => ChildKill) es, st) /\
  RawProxy.run es st = (map (fun _ => ChildKill) es, st).
Proof.
  induction es as [|e es IH]; intros [held k] K H; [split; reflexivity|].
  cbn [killed] in K; subst k.
  inversion H as [|? ? He Hes]; subst.
  destruct (IH {| buffer := held; killed := false |} eq_refl Hes) as [IH1 IH2].
  destruct He as [-> | ->];
    cbn [map Proxy.run RawProxy.run Proxy.handle RawProxy.handle];
    unfold kill_child; cbn [killed buffer]; rewrite IH1, IH2; split; reflexivity.
Qed.

(** C7, as amended.  With a child not yet killed: when the signal of the
    first close event (or error event, which has the same handler) reaches
    the child, the handler calls [child.kill()] once, [child.killed] is then
    set, and whatever events follow no handler calls [child.kill()] again.
    When the child is gone, [child.kill()] delivers nothing and leaves
    [child.killed] unset: each close or error event calls it once more, and
    the state of the connection does not change.  In both proxies. *)
Theorem idempotent_kill st :
  killed st = false ->
  (forall first later,
     first = WsClosed true \/ first = WsError true ->
     fst (handle first st) = [ChildKill] /\
     kills (fst (run later (snd (handle first st)))) = 0 /\
     fst (RawProxy.handle first st) = [ChildKill] /\
     kills (fst (RawProxy.run later (snd (RawProxy.handle first st)))) = 0) /\
  (forall es,
     Forall undelivered es ->
     run es st = (map (fun _ => ChildKill) es, st) /\
     RawProxy.run es st = (map (fun _ => ChildKill) es, st)).
Proof.
  intros K; split.
  - intros first later H; exact (kill_once_when_delivered st first later K H).
  - intros es H; exact (kill_again_when_undelivered es st K H).
Qed.

(* ---------------------------------------------------------------- *)
(** ** Relay to the child, and what the decoder leaves *)

(** X4.  Messages of the browser reach the standard input of a child that was
    not killed one write each, unchanged and in the order received. *)
Theorem relay_to_child_in_order st messages :
  killed st = false ->
  run (map WsMessage messages) st = (map StdinWrite messages, st) /\
  RawProxy.run (map WsMessage messages) st = (map StdinWrite messages, st).
Proof.
  intros K; induction messages as [|m ms [IH1 IH2]]; [split; reflexivity|].
  cbn [map Proxy.run RawProxy.run Proxy.handle RawProxy.handle].
  unfold write_stdin; rewrite K, IH1, IH2; split; reflexivity.
Qed.

(** X5.  A chunk event only removes bytes from the front of the buffer: what it
    leaves is a suffix of the buffer with the chunk appended. *)
Theorem drain_leaves_suffix fuel : forall rs buffer,
  exists consumed, buffer = consumed ++ snd (drain fuel rs buffer).
Proof.
  induction fuel as [|fuel IH]; intros rs buffer; [exists []; reflexivity|].
  cbn [Proxy.drain].
  destruct (buffer_indexOf CRLFCRLF buffer) as [headerEnd|];
    [|exists []; reflexivity].
  destruct (Header.match_content_length _) as [ds|].
  - destruct (N.ltb _ _); [exists []; reflexivity|].
    match goal with |- context [Proxy.drain _ _ fuel rs (skipn ?n buffer)] =>
      destruct (IH rs (skipn n buffer)) as [consumed E];
      destruct (Proxy.drain _ _ fuel rs (skipn n buffer)) as [calls rest];
      exists (firstn n buffer ++ consumed) end.
    cbn [snd] in *; rewrite <- app_assoc, <- E, firstn_skipn; reflexivity.
  - destruct (IH rs (skipn (headerEnd + 4) buffer)) as [consumed E].
    exists (firstn (headerEnd + 4) buffer ++ consumed).
    rewrite <- app_assoc, <- E, firstn_skipn; reflexivity.
Qed.

End ProxyFacts.

(* ------------------------------------------------------------------ *)
(** ** The reader [parseMessages] *)

Lemma starts_with_DELIMITER_no_CR c s :
  c <> 13%N -> Seq.starts_with N.eqb Transport.DELIMITER (c :: s) = false.
Proof.
  intros H; cbn [Seq.starts_with Transport.DELIMITER].
  destruct (N.eqb_spec 13 c); [congruence | reflexivity].
Qed.

Lemma string_indexOf_after_block block rest :
  no_CR_units block ->
  Seq.indexOf N.eqb Transport.DELIMITER (block ++ Transport.DELIMITER ++ rest)
  = Some (length block).
Proof.
  induction 1 as [|c block Hc _ IH].
  - reflexivity.
  - cbn [app Seq.indexOf length].
    rewrite starts_with_DELIMITER_no_CR by assumption.
    rewrite IH; reflexivity.
Qed.

Lemma header_units_no_CR n : no_CR_units (js_of_bytes (Frame.header n)).
Proof.
  unfold no_CR_units, js_of_bytes; apply Forall_map.
  eapply Forall_impl; [|apply (header_no_CR n)].
  intros b Hb E; apply Hb.
  apply (f_equal Byte.of_N) in E; rewrite Byte.of_to_N in E.
  injection E; auto.
Qed.

Lemma frame_length content :
  length (Transport.frame content)
  = length (Frame.header (N.of_nat (length content))) + 4 + length content.
Proof.
  unfold Transport.frame, js_of_bytes; rewrite !length_app, length_map.
  simpl; lia.
Qed.

Section TransportFacts.
Variable JSON : Type.
Variable JSON_parse : jsstring -> option JSON.

Local Abbreviation parse_loop := (Transport.parse_loop JSON_parse).
Local Abbreviation parseMessages := (Transport.parseMessages JSON_parse).
Local Abbreviation push := (Transport.push JSON_parse).

(** The turns that the loop is given are never what stops it. *)
Lemma parse_loop_fuel fuel1 : forall fuel2 buffer pos,
  length buffer - pos < fuel1 -> length buffer - pos < fuel2 ->
  parse_loop fuel1 buffer pos = parse_loop fuel2 buffer pos.
Proof.
  induction fuel1 as [|fuel1 IH]; intros [|fuel2] buffer pos L1 L2; try lia.
  cbn [Transport.parse_loop].
  destruct (pos <? length buffer) eqn:Epos; [|reflexivity].
  apply Nat.ltb_lt in Epos.
  unfold string_indexOf_from, Seq.indexOf_from.
  match goal with |- context [Seq.indexOf ?e ?d ?s] =>
    destruct (Seq.indexOf e d s) as [i|] end;
    cbn [option_map]; [|reflexivity].
  destruct (Header.match_content_length _) as [ds|]; [|reflexivity].
  destruct (N.ltb_spec (N.of_nat (length buffer))
                       (N.of_nat (pos + i + 4) + Header.parseInt ds)) as [Hlt|Hge];
    [reflexivity|].
  rewrite (IH fuel2) by lia; reflexivity.
Qed.

(** The loop reads the buffer from [pos] on and nothing before. *)
Lemma parse_loop_shift fuel : forall before buffer pos,
  parse_loop fuel (before ++ buffer) (length before + pos)
  = (fst (parse_loop fuel buffer pos),
     length before + snd (parse_loop fuel buffer pos)).
Proof.
  induction fuel as [|fuel IH]; intros before buffer pos; [reflexivity|].
  cbn [Transport.parse_loop].
  rewrite length_app.
  replace (length before + pos <? length before + length buffer)
    with (pos <? length buffer)
    by (destruct (Nat.ltb_spec pos (length buffer)),
          (Nat.ltb_spec (length before + pos) (length before + length buffer));
        auto; lia).
  destruct (pos <? length buffer); [|reflexivity].
  unfold string_indexOf_from, Seq.indexOf_from; rewrite skipn_past.
  match goal with |- context [Seq.indexOf ?e ?d ?s] =>
    destruct (Seq.indexOf e d s) as [i|] end;
    cbn [option_map]; [|reflexivity].
  unfold Seq.slice; rewrite skipn_past.
  replace (length before + pos + i - (length before + pos)) with (pos + i - pos) by lia.
  destruct (Header.match_content_length _) as [ds|]; [|reflexivity].
  set (cl := Header.parseInt ds).
  replace (N.of_nat (length before + length buffer)
           <? N.of_nat (length before + pos + i + 4) + cl)%N
    with (N.of_nat (length buffer) <? N.of_nat (pos + i + 4) + cl)%N
    by (destruct (N.ltb_spec (N.of_nat (length buffer)) (N.of_nat (pos + i + 4) + cl)),
          (N.ltb_spec (N.of_nat (length before + length buffer))
                      (N.of_nat (length before + pos + i + 4) + cl));
        auto; lia).
  destruct (N.of_nat (length buffer) <? N.of_nat (pos + i + 4) + cl)%N;
    [reflexivity|].
  replace (N.to_nat (N.of_nat (length before + pos + i + 4) + cl))
    with (length before + N.to_nat (N.of_nat (pos + i + 4) + cl)) by lia.
  rewrite IH.
  replace (length before + N.to_nat (N.of_nat (pos + i + 4) + cl)
           - (length before + pos + i + 4))
    with (N.to_nat (N.of_nat (pos + i + 4) + cl) - (pos + i + 4)) by lia.
  replace (length before + pos + i + 4) with (length before + (pos + i + 4)) by lia.
  rewrite skipn_past.
  destruct (Transport.parse_loop _ fuel buffer _); reflexivity.
Qed.

(** A frame at the head of the buffer: its content is parsed and pushed,
    or skipped when it is not JSON, and the loop goes on after it. *)
Lemma parse_loop_frame fuel content rest :
  let buffer := Transport.frame content ++ rest in
  parse_loop (S fuel) buffer 0
  = (push content (fst (parse_loop fuel buffer (length (Transport.frame content)))),
     snd (parse_loop fuel buffer (length (Transport.frame content)))).
Proof.
  intros buffer; set (n := N.of_nat (length content)).
  set (h := js_of_bytes (Frame.header n)).
  assert (Eb : buffer = h ++ Transport.DELIMITER ++ content ++ rest)
    by (unfold buffer, Transport.frame; fold n h; rewrite <- !app_assoc; reflexivity).
  assert (Hl : length (Transport.frame content) = length h + 4 + length content)
    by (rewrite frame_length; unfold h, js_of_bytes; rewrite length_map; reflexivity).
  cbn [Transport.parse_loop].
  replace (0 <? length buffer) with true
    by (symmetry; apply Nat.ltb_lt; unfold buffer; rewrite length_app, Hl; lia).
  unfold string_indexOf_from, Seq.indexOf_from; cbn [skipn].
  rewrite Eb at 1.
  rewrite string_indexOf_after_block by apply header_units_no_CR.
  cbn [option_map Nat.add]; unfold Seq.slice; cbn [skipn].
  rewrite Nat.sub_0_r.
  rewrite Eb at 1; rewrite firstn_exact.
  unfold h at 1; rewrite match_header.
  rewrite parseInt_decimal; fold n.
  replace (N.of_nat (length buffer) <? N.of_nat (length h + 4) + n)%N with false
    by (symmetry; apply N.ltb_ge; unfold buffer, n; rewrite length_app, Hl; lia).
  replace (N.to_nat (N.of_nat (length h + 4) + n))
    with (length (Transport.frame content)) by (rewrite Hl; unfold n; lia).
  replace (firstn (length (Transport.frame content) - (length h + 4))
                  (skipn (length h + 4) buffer)) with content.
  - destruct (Transport.parse_loop _ fuel buffer _); reflexivity.
  - rewrite Eb, Hl, app_assoc.
    replace (length h + 4) with (length (h ++ Transport.DELIMITER))
      by (rewrite length_app; reflexivity).
    rewrite skipn_exact.
    replace (length (h ++ Transport.DELIMITER) + length content
             - length (h ++ Transport.DELIMITER)) with (length content) by lia.
    rewrite firstn_exact; reflexivity.
Qed.

(** [parseMessages] on a buffer that starts with a frame. *)
Lemma parseMessages_frame content rest :
  parseMessages (Transport.frame content ++ rest)
  = (push content (fst (parseMessages rest)), snd (parseMessages rest)).
Proof.
  unfold Transport.parseMessages.
  rewrite parse_loop_frame.
  pose proof (parse_loop_shift (length (Transport.frame content ++ rest))
                               (Transport.frame content) rest 0) as Hs.
  rewrite Nat.add_0_r in Hs; rewrite Hs; cbn [fst snd].
  rewrite (parse_loop_fuel _ (S (length rest)) rest 0)
    by (rewrite ?length_app, ?frame_length; lia).
  destruct (Transport.parse_loop _ (S (length rest)) rest 0) as [messages pos].
  cbn [fst snd]; rewrite skipn_past; reflexivity.
Qed.

(** X2.  The reader has no bound on its turns: it decodes every frame of the
    buffer in one call, pushing the contents that are JSON and skipping the
    others. *)
Theorem parseMessages_stream contents :
  parseMessages (concat (map Transport.frame contents))
  = (fold_right push [] contents, []).
Proof.
  induction contents as [|content contents IH]; [reflexivity|].
  cbn [map concat fold_right]; rewrite parseMessages_frame, IH; reflexivity.
Qed.

(** X1.  The reader does not step over a header without a length: once its
    buffer starts with such a block, a message event delivers nothing and
    keeps all the text, whatever text arrives. *)
Theorem parseMessages_stalls_on_malformed_header buffer headerEnd text :
  Seq.indexOf N.eqb Transport.DELIMITER buffer = Some headerEnd ->
  Header.match_content_length (firstn headerEnd buffer) = None ->
  Transport.on_message JSON_parse buffer text = ([], buffer ++ text).
Proof.
  intros Hi Hm.
  pose proof (indexOf_bound _ _ _ _ _ Hi) as Hb.
  change (length Transport.DELIMITER) with 4 in Hb.
  unfold Transport.on_message, Transport.parseMessages.
  cbn [Transport.parse_loop].
  replace (0 <? length (buffer ++ text)) with true
    by (symmetry; apply Nat.ltb_lt; rewrite length_app; lia).
  unfold string_indexOf_from, Seq.indexOf_from; cbn [skipn].
  rewrite (indexOf_app _ _ _ _ text _ Hi); cbn [option_map Nat.add].
  unfold Seq.slice; cbn [skipn]; rewrite Nat.sub_0_r, firstn_app.
  replace (headerEnd - length buffer) with 0 by lia.
  rewrite firstn_O, app_nil_r, Hm; reflexivity.
Qed.

Lemma string_indexOf_block_partial block part :
  no_CR_units block -> length part < 4 ->
  Seq.indexOf N.eqb Transport.DELIMITER (block ++ part) = None.
Proof.
  intros Hb Hp; induction Hb as [|c block Hc _ IH].
  - apply indexOf_short; simpl; lia.
  - cbn [app Seq.indexOf].
    rewrite starts_with_DELIMITER_no_CR by assumption.
    rewrite IH; reflexivity.
Qed.

Lemma parseMessages_no_delimiter buffer :
  Seq.indexOf N.eqb Transport.DELIMITER buffer = None ->
  parseMessages buffer = ([], buffer).
Proof.
  intros Hi; unfold Transport.parseMessages; cbn [Transport.parse_loop].
  unfold string_indexOf_from, Seq.indexOf_from; cbn [skipn]; rewrite Hi.
  destruct (0 <? length buffer); reflexivity.
Qed.

Lemma parseMessages_wait buffer headerEnd ds :
  Seq.indexOf N.eqb Transport.DELIMITER buffer = Some headerEnd ->
  Header.match_content_length (firstn headerEnd buffer) = Some ds ->
  (N.of_nat (length buffer) < N.of_nat (headerEnd + 4) + Header.parseInt ds)%N ->
  parseMessages buffer = ([], buffer).
Proof.
  intros Hi Hm Hl; unfold Transport.parseMessages; cbn [Transport.parse_loop].
  unfold string_indexOf_from, Seq.indexOf_from, Seq.slice; cbn [skipn].
  rewrite Hi; cbn [option_map Nat.add]; rewrite Nat.sub_0_r, Hm.
  apply N.ltb_lt in Hl; rewrite Hl.
  destruct (0 <? length buffer); reflexivity.
Qed.

(** The reader keeps an incomplete frame whole. *)
Lemma parseMessages_partial part content :
  Transport.partial_frame part content -> parseMessages part = ([], part).
Proof.
  intros (missing & Hne & E); unfold Transport.frame in E.
  set (n := N.of_nat (length content)) in *.
  set (h := js_of_bytes (Frame.header n)) in *.
  assert (Hh : no_CR_units h) by apply header_units_no_CR.
  rewrite app_assoc in E.
  apply app_eq_app in E as (l & [[Eq Ep] | [Eh Em]]).
  - subst part; rewrite <- app_assoc.
    apply parseMessages_wait with (headerEnd := length h)
                                  (ds := js_of_bytes (Frame.decimal n)).
    + apply string_indexOf_after_block; exact Hh.
    + rewrite firstn_exact; apply match_header.
    + assert (length l < length content)
        by (rewrite Ep, length_app; destruct missing; [congruence | simpl; lia]).
      rewrite parseInt_decimal, !length_app.
      change (length Transport.DELIMITER) with 4; unfold n; lia.
  - destruct l as [|x l].
    + rewrite app_nil_r in Eh; subst part; simpl in Em; subst missing.
      replace (h ++ Transport.DELIMITER) with (h ++ Transport.DELIMITER ++ [])
        by reflexivity.
      apply parseMessages_wait with (headerEnd := length h)
                                    (ds := js_of_bytes (Frame.decimal n)).
      * apply string_indexOf_after_block; exact Hh.
      * rewrite firstn_exact; apply match_header.
      * assert (0 < length content) by (destruct content; [congruence | simpl; lia]).
        rewrite parseInt_decimal, !length_app.
        change (length Transport.DELIMITER) with 4; unfold n; simpl length; lia.
    + apply parseMessages_no_delimiter.
      symmetry in Eh; apply app_eq_app in Eh as (l' & [[Eq Ec] | [Eh Ec]]).
      * subst part; apply string_indexOf_block_partial; [exact Hh|].
        apply (f_equal (@length N)) in Ec; rewrite length_app in Ec.
        simpl in Ec; lia.
      * rewrite <- (app_nil_r part); apply string_indexOf_block_partial;
          [|simpl; lia].
        unfold no_CR_units in Hh; rewrite Eh in Hh.
        apply Forall_app in Hh; tauto.
Qed.

Lemma parseMessages_frames done rest :
  parseMessages (concat (map Transport.frame done) ++ rest)
  = (fold_right push (fst (parseMessages rest)) done, snd (parseMessages rest)).
Proof.
  induction done as [|content done IH]; cbn [map concat fold_right app].
  - destruct (Transport.parseMessages _ rest); reflexivity.
  - rewrite <- app_assoc, parseMessages_frame, IH; reflexivity.
Qed.

Lemma push_app contents : forall tail,
  fold_right push tail contents = fold_right push [] contents ++ tail.
Proof.
  induction contents as [|content contents IH]; intros tail; cbn [fold_right].
  - reflexivity.
  - rewrite IH; unfold Transport.push.
    destruct (JSON_parse content); reflexivity.
Qed.

Lemma receive_stream texts : forall buffer contents,
  match contents with
  | [] => buffer = []
  | content :: _ => Transport.partial_frame buffer content
  end ->
  buffer ++ concat texts = concat (map Transport.frame contents) ->
  Transport.receive JSON_parse texts buffer = (fold_right push [] contents, []).
Proof.
  induction texts as [|text texts IH]; intros buffer contents Hp E.
  - cbn [concat] in E; rewrite app_nil_r in E.
    destruct contents as [|c cs]; [subst; reflexivity|].
    exfalso; destruct Hp as (missing & Hne & Em).
    rewrite E in Em; cbn [map concat] in Em.
    apply (f_equal (@length N)) in Em; rewrite !length_app in Em.
    destruct missing; [congruence | simpl in Em; lia].
  - cbn [concat] in E; rewrite app_assoc in E.
    destruct (split_concat _ _ Transport.frame _ _ _ E)
      as (done & todo & part & -> & Ea & Er & Hq).
    cbn [Transport.receive]; unfold Transport.on_message.
    rewrite Ea, parseMessages_frames.
    assert (Hpart : parseMessages part = ([], part)).
    { destruct todo as [|c todo].
      - subst part; reflexivity.
      - apply (parseMessages_partial part c); exact Hq. }
    rewrite Hpart; cbn [fst snd].
    rewrite (IH part todo Hq Er), fold_right_app.
    rewrite (push_app done (fold_right push [] todo)); reflexivity.
Qed.

(** X3.  The reader returns every frame of a stream, in order, however the
    stream is cut into the texts of the message events: frames whose header
    declares their length in code units, cut inside a header, the delimiter
    or the content.  The contents that are JSON are delivered, parsed. *)
Theorem reader_round_trip contents texts :
  concat texts = concat (map Transport.frame contents) ->
  Transport.receive JSON_parse texts [] = (fold_right push [] contents, []).
Proof.
  intros E; apply receive_stream; [|exact E].
  destruct contents as [|c cs]; [reflexivity|].
  exists (Transport.frame c); split; [discriminate | reflexivity].
Qed.

(** A header block without a length at the head of the buffer: the loop
    breaks at once. *)
Lemma parseMessages_no_length buffer headerEnd :
  Seq.indexOf N.eqb Transport.DELIMITER buffer = Some headerEnd ->
  Header.match_content_length (firstn headerEnd buffer) = None ->
  parseMessages buffer = ([], buffer).
Proof.
  intros Hi Hm; unfold Transport.parseMessages; cbn [Transport.parse_loop].
  unfold string_indexOf_from, Seq.indexOf_from, Seq.slice; cbn [skipn].
  rewrite Hi; cbn [option_map Nat.add]; rewrite Nat.sub_0_r, Hm.
  destruct (0 <? length buffer); reflexivity.
Qed.

Lemma receive_stalls texts : forall buffer headerEnd,
  Seq.indexOf N.eqb Transport.DELIMITER buffer = Some headerEnd ->
  Header.match_content_length (firstn headerEnd buffer) = None ->
  Transport.receive JSON_parse texts buffer = ([], buffer ++ concat texts).
Proof.
  induction texts as [|text texts IH]; intros buffer headerEnd Hi Hm.
  - cbn [Transport.receive concat]; rewrite app_nil_r; reflexivity.
  - pose proof (indexOf_bound _ _ _ _ _ Hi) as Hb.
    assert (Hi' : Seq.indexOf N.eqb Transport.DELIMITER (buffer ++ text)
                  = Some headerEnd) by (apply indexOf_app; exact Hi).
    assert (Hm' : Header.match_content_length (firstn headerEnd (buffer ++ text))
                  = None).
    { rewrite firstn_app; replace (headerEnd - length buffer) with 0 by lia.
      rewrite firstn_O, app_nil_r; exact Hm. }
    cbn [Transport.receive concat]; unfold Transport.on_message.
    rewrite (parseMessages_no_length _ headerEnd Hi' Hm').
    rewrite (IH _ headerEnd Hi' Hm'), <- app_assoc; reflexivity.
Qed.


End TransportFacts.

(* ------------------------------------------------------------------ *)
(** ** The two decoders side by side *)

Section BothDecoders.
Variable JSON : Type.
Variable JSON_parse : jsstring -> option JSON.
Variable preview : JSON -> option jsstring.

Local Abbreviation on_stdout_data := (Proxy.on_stdout_data JSON_parse preview).
Local Abbreviation on_message := (Transport.on_message JSON_parse).
Local Abbreviation parseMessages := (Transport.parseMessages JSON_parse).

Lemma push_all contents : forall messages,
  map JSON_parse contents = map Some messages ->
  fold_right (Transport.push JSON_parse) [] contents = messages.
Proof.
  induction contents as [|content contents IH]; intros [|message messages] E;
    try discriminate; [reflexivity|].
  cbn [map] in E; injection E as Ec Er.
  cbn [fold_right]; unfold Transport.push at 1.
  rewrite (IH messages Er), Ec; reflexivity.
Qed.


(** C3, in the two decoders.  A buffer that starts with a header block in
    which the pattern finds no length, followed by the delimiter and by a
    complete frame.  The proxy drops the block and its delimiter and
    nothing else: it sends exactly one message, the frame, and its buffer
    is empty.  The reader breaks out of its loop at the block: it delivers
    nothing, keeps all the text, the frame included, and does the same at
    every later message event, whatever text arrives.  Neither throws. *)
Theorem malformed_header_proxy_skips_reader_stalls :
  (forall st data headerEnd payload,
     let held := buffer st ++ data in
     buffer_indexOf CRLFCRLF held = Some headerEnd ->
     Header.match_content_length (Utf8.toString (firstn headerEnd held)) = None ->
     skipn (headerEnd + 4) held = Frame.encode payload ->
     sends (fst (on_stdout_data OPEN data st)) = [Frame.encode payload] /\
     buffer (snd (on_stdout_data OPEN data st)) = []) /\
  (forall stored text headerEnd content,
     let held := stored ++ text in
     Seq.indexOf N.eqb Transport.DELIMITER held = Some headerEnd ->
     Header.match_content_length (firstn headerEnd held) = None ->
     skipn (headerEnd + 4) held = Transport.frame content ->
     on_message stored text = ([], held) /\
     forall later,
       Transport.receive JSON_parse later held = ([], held ++ concat later)).
Proof.
  split.
  - intros st data headerEnd payload.
    exact (proxy_skips_malformed_header JSON JSON_parse preview st data headerEnd
             payload).
  - intros stored text headerEnd content held Hi Hm _; split.
    + unfold Transport.on_message; fold held.
      exact (parseMessages_no_length JSON JSON_parse held headerEnd Hi Hm).
    + intros later.
      exact (receive_stalls JSON JSON_parse later held headerEnd Hi Hm).
Qed.

(** C5, as amended.  The proxy: when its buffer starts with more whole
    frames than the hundred turns of the loop, one chunk event sends the
    first hundred frames, in order, and leaves the bytes of all the others
    in the buffer; the next chunk event, whatever it brings, goes on with
    the frames that were left; no chunk event ever sends more than a
    hundred messages.  The reader has no such bound: one call decodes all
    the frames at the head of its buffer, however many they are. *)
Theorem iteration_cap_fairness :
  (forall st data payloads rest,
     buffer st ++ data = Frame.stream payloads ++ rest ->
     Proxy.MAX_ITERATIONS < length payloads ->
     let left := skipn Proxy.MAX_ITERATIONS payloads in
     sends (fst (on_stdout_data OPEN data st))
     = map Frame.encode (firstn Proxy.MAX_ITERATIONS payloads) /\
     buffer (snd (on_stdout_data OPEN data st)) = Frame.stream left ++ rest /\
     (forall data', exists more,
        sends (fst (on_stdout_data OPEN data' (snd (on_stdout_data OPEN data st))))
        = map Frame.encode (firstn Proxy.MAX_ITERATIONS left) ++ more) /\
     (forall rs' data' st',
        length (sends (fst (on_stdout_data rs' data' st'))) <= Proxy.MAX_ITERATIONS)) /\
  (forall contents messages rest,
     map JSON_parse contents = map Some messages ->
     parseMessages (concat (map Transport.frame contents) ++ rest)
     = (messages ++ fst (parseMessages rest), snd (parseMessages rest))).
Proof.
  split.
  - intros st data payloads rest.
    exact (proxy_stops_at_the_cap JSON JSON_parse preview st data payloads rest).
  - intros contents messages rest E.
    rewrite parseMessages_frames, push_app, (push_all contents messages E).
    reflexivity.
Qed.

End BothDecoders.

(* ------------------------------------------------------------------ *)
(** ** Invalid JSON in a frame, in the proxy and in the reader *)


(* ------------------------------------------------------------------ *)
(** ** Upgrade routing *)

Section UpgradeFacts.
Variable URL_pathname : jsstring -> jsstring -> option jsstring.

Local Abbreviation upgradeHandler := (Upgrade.upgradeHandler URL_pathname).

Lemma jsstring_eqb_eq a b : Upgrade.jsstring_eqb a b = true <-> a = b.
Proof.
  unfold Upgrade.jsstring_eqb; destruct (list_eq_dec N.eq_dec a b); split;
    auto; discriminate.
Qed.

(** C8, on the code.  What the handler does is decided by [new URL]
    alone.  It starts the handshake of the request, and does nothing else,
    exactly when the path is [/api/copilot]; it returns without any call
    exactly when the URL has another path; and it throws, out of the
    upgrade listener, exactly when [new URL] refuses the target or the
    base built from the [Host] header, whatever path was asked for: a
    request meant for another consumer is then not left alone. *)
Theorem upgrade_routing request :
  (upgradeHandler request = Upgrade.Returns [request]
   <-> URL_pathname (Upgrade.url request) (Upgrade.base request)
       = Some Upgrade.ROUTE) /\
  (upgradeHandler request = Upgrade.Returns []
   <-> exists pathname,
         URL_pathname (Upgrade.url request) (Upgrade.base request) = Some pathname
         /\ pathname <> Upgrade.ROUTE) /\
  (upgradeHandler request = Upgrade.Throws
   <-> URL_pathname (Upgrade.url request) (Upgrade.base request) = None).
Proof.
  unfold Upgrade.upgradeHandler.
  destruct (URL_pathname _ _) as [pathname|].
  - destruct (Upgrade.jsstring_eqb pathname Upgrade.ROUTE) eqn:E.
    + apply jsstring_eqb_eq in E; subst pathname.
      split; [split; reflexivity|]; split; split; try discriminate.
      intros (pathname & [= <-] & H); contradiction.
    + assert (N : pathname <> Upgrade.ROUTE).
      { intros ->.
        assert (Upgrade.jsstring_eqb Upgrade.ROUTE Upgrade.ROUTE = true)
          by (apply jsstring_eqb_eq; reflexivity).
        congruence. }
      split; [split; [discriminate | intros [= H]; contradiction]|].
      split; split; try discriminate; [|reflexivity].
      intros _; exists pathname; split; [reflexivity | exact N].
  - split; [split; discriminate|].
    split; split; try reflexivity; try discriminate.
    intros (pathname & H & _); discriminate.
Qed.

(** C9, at the failing input.  When [new URL] rejects the request target
    or the base built from the [Host] header, the exception leaves the
    upgrade handler: nothing in it catches the [TypeError]. *)
Theorem upgrade_throws_on_invalid_url request :
  URL_pathname (Upgrade.url request) (Upgrade.base request) = None ->
  upgradeHandler request = Upgrade.Throws.
Proof. unfold Upgrade.upgradeHandler; intros ->; reflexivity. Qed.

End UpgradeFacts.

(* ================================================================== *)
(** * More of the code

    The handlers of the proxies seen over whole runs, the writer and the
    listeners of the reader, the chat of the task pane, and the permission
    service. *)

(* ------------------------------------------------------------------ *)
(** ** The proxies over a run of events *)

Section ProxyRuns.
Variable JSON : Type.
Variable JSON_parse : jsstring -> option JSON.
Variable preview : JSON -> option jsstring.

Local Abbreviation run := (Proxy.run JSON_parse preview).
Local Abbreviation handle := (Proxy.handle JSON_parse preview).

Lemma stdin_writes_app a b : stdin_writes (a ++ b) = stdin_writes a ++ stdin_writes b.
Proof. unfold stdin_writes; apply flat_map_app. Qed.

Lemma stdin_writes_drain fuel : forall rs held,
  stdin_writes (fst (Proxy.drain JSON_parse preview fuel rs held)) = [].
Proof.
  induction fuel as [|fuel IH]; intros rs held; [reflexivity|].
  cbn [Proxy.drain].
  destruct (buffer_indexOf CRLFCRLF held) as [headerEnd|]; [|reflexivity].
  destruct (Header.match_content_length _) as [ds|]; [|apply IH].
  destruct (N.ltb _ _); [reflexivity|].
  match goal with |- context [Proxy.drain _ _ fuel rs ?b] =>
    specialize (IH rs b); destruct (Proxy.drain _ _ fuel rs b) end.
  cbn [fst] in *; rewrite !stdin_writes_app, IH.
  unfold Proxy.log_message, Proxy.forward.
  destruct (JSON_parse _) as [json|]; [destruct (preview json)|];
    destruct (is_open rs); reflexivity.
Qed.

(** An event that is not a chunk of [child.stdout] sends nothing and
    leaves the buffer; a chunk event reads the buffer and nothing else. *)
Lemma handle_by_buffer e st st' :
  buffer st = buffer st' ->
  (if is_stdout e then
     sends (fst (handle e st)) = sends (fst (handle e st')) /\
     buffer (snd (handle e st)) = buffer (snd (handle e st'))
   else
     sends (fst (handle e st)) = [] /\ buffer (snd (handle e st)) = buffer st).
Proof.
  intros E; destruct e; cbn [is_stdout Proxy.handle]; auto.
  - unfold Proxy.on_stdout_data; rewrite E.
    destruct (Proxy.drain _ _ _ _ _); auto.
  - unfold write_stdin; destruct (killed st); auto.
  - unfold kill_child; destruct (killed st); auto.
  - unfold kill_child; destruct (killed st); auto.
Qed.

Lemma run_by_buffer es : forall st st',
  buffer st = buffer st' ->
  sends (fst (run es st)) = sends (fst (run (filter is_stdout es) st')) /\
  buffer (snd (run es st)) = buffer (snd (run (filter is_stdout es) st')).
Proof.
  induction es as [|e es IH]; intros st st' E; [auto|].
  rewrite run_cons; cbn [filter fst snd].
  pose proof (handle_by_buffer e st st' E) as H.
  destruct (is_stdout e).
  - destruct H as [Hs Hb]; rewrite run_cons; cbn [fst snd].
    destruct (IH _ _ Hb) as [IHs IHb].
    rewrite !sends_app, Hs, IHs, IHb; auto.
  - destruct H as [Hs Hb].
    destruct (IH (snd (handle e st)) st') as [IHs IHb]; [congruence|].
    rewrite sends_app, Hs, IHs, IHb; auto.
Qed.

(** X6.  Only the bytes of [child.stdout] reach the browser: over any run
    of events of a connection, what is sent to the socket, and what stays in
    the buffer, is what the chunk events alone would give; the error output
    of the child, the messages of the browser and the close, error and exit
    events add nothing.  In the proxy without a buffer the sends are the
    chunks that came while the socket was open. *)
Theorem only_stdout_reaches_socket es st :
  sends (fst (run es st)) = sends (fst (run (filter is_stdout es) st)) /\
  buffer (snd (run es st)) = buffer (snd (run (filter is_stdout es) st)) /\
  sends (fst (RawProxy.run es st))
  = flat_map (fun e => match e with
                       | StdoutData OPEN data => [data]
                       | _ => []
                       end) es.
Proof.
  destruct (run_by_buffer es st st eq_refl) as [Hs Hb].
  split; [exact Hs|]; split; [exact Hb|].
  clear Hs Hb; revert st; induction es as [|e es IH]; intros st; [reflexivity|].
  cbn [RawProxy.run flat_map].
  destruct (RawProxy.handle e st) as [calls st'] eqn:Eh.
  specialize (IH st'); destruct (RawProxy.run es st') as [calls' st''].
  cbn [fst] in *; rewrite sends_app, IH; f_equal.
  destruct e; cbn [RawProxy.handle] in Eh;
    unfold write_stdin, kill_child, RawProxy.on_stdout_data in Eh;
    try destruct (killed st); try destruct readyState;
    injection Eh as <- _; reflexivity.
Qed.

Lemma handle_killed_writes e st :
  killed st = true ->
  stdin_writes (fst (handle e st)) = [] /\ killed (snd (handle e st)) = true.
Proof.
  intros K; destruct e; cbn [Proxy.handle]; auto.
  - unfold Proxy.on_stdout_data.
    pose proof (stdin_writes_drain Proxy.MAX_ITERATIONS readyState (buffer st ++ data)).
    destruct (Proxy.drain _ _ _ _ _); auto.
  - unfold write_stdin; rewrite K; auto.
  - unfold kill_child; rewrite K; auto.
  - unfold kill_child; rewrite K; auto.
Qed.

Lemma raw_handle_killed_writes e st :
  killed st = true ->
  stdin_writes (fst (RawProxy.handle e st)) = [] /\
  killed (snd (RawProxy.handle e st)) = true.
Proof.
  intros K; destruct e; cbn [RawProxy.handle]; auto.
  - unfold RawProxy.on_stdout_data; destruct (is_open readyState); auto.
  - unfold write_stdin; rewrite K; auto.
  - unfold kill_child; rewrite K; auto.
  - unfold kill_child; rewrite K; auto.
Qed.

(** X7.  Once the child is killed nothing more is written to its standard
    input: the messages that the browser still sends are dropped, whatever
    events follow.  In both proxies. *)
Theorem no_stdin_write_after_kill es : forall st,
  killed st = true ->
  stdin_writes (fst (run es st)) = [] /\
  stdin_writes (fst (RawProxy.run es st)) = [].
Proof.
  induction es as [|e es IH]; intros st K; [split; reflexivity|].
  rewrite run_cons; cbn [fst RawProxy.run].
  destruct (handle_killed_writes e st K) as [H0 K'].
  destruct (raw_handle_killed_writes e st K) as [R0 RK'].
  destruct (IH _ K') as [IH1 _].
  destruct (RawProxy.handle e st) as [calls st'] eqn:Eh; cbn [fst snd] in *.
  destruct (IH st' RK') as [_ IH2].
  destruct (RawProxy.run es st'); cbn [fst] in *.
  rewrite !stdin_writes_app, H0, IH1, R0, IH2; split; reflexivity.
Qed.

End ProxyRuns.

(* ------------------------------------------------------------------ *)
(** ** The writer, and the reader on what the writer sends *)

Lemma encode_ascii s :
  Forall (fun c => (c < 128)%N) s -> length (TextEncoder.encode s) = length s.
Proof.
  induction 1 as [|c s Hc _ IH]; [reflexivity|].
  cbn [TextEncoder.encode].
  apply N.ltb_lt in Hc; rewrite Hc; simpl; congruence.
Qed.

Lemma length_four_bytes cp : length (TextEncoder.four_bytes cp) = 4.
Proof. reflexivity. Qed.

Lemma length_three_bytes c : length (TextEncoder.three_bytes c) = 3.
Proof. reflexivity. Qed.

Lemma length_REPLACEMENT : length TextEncoder.REPLACEMENT = 3.
Proof. reflexivity. Qed.

(** The encoding has at least one byte for a code unit, and more when a
    unit is outside ASCII. *)
Lemma encode_length_fuel n : forall s,
  length s <= n ->
  length s <= length (TextEncoder.encode s) /\
  (Exists (fun c => (128 <= c)%N) s -> length s < length (TextEncoder.encode s)).
Proof.
  induction n as [|n IH]; intros [|c s] L; cbn [length] in L; try lia.
  - split; [cbn [TextEncoder.encode length]; lia | intros H; inversion H].
  - split; [cbn [TextEncoder.encode length]; lia | intros H; inversion H].
  - destruct (IH s ltac:(lia)) as [Hle Hlt].
    cbn [TextEncoder.encode].
    destruct (N.ltb_spec c 128) as [Hc|Hc].
    + cbn [length]; split; [lia|].
      intros H; inversion H as [? ? Hx|? ? Hx]; subst; [lia|].
      specialize (Hlt Hx); lia.
    + destruct (c <? 2048)%N; [cbn [length]; split; intros; lia|].
      destruct (TextEncoder.is_high c).
      * destruct s as [|d s'].
        -- rewrite length_REPLACEMENT; cbn [length]; split; intros; lia.
        -- destruct (TextEncoder.is_low d).
           ++ cbn [length] in L.
              destruct (IH s' ltac:(lia)) as [Hle' _].
              rewrite length_app, length_four_bytes; cbn [length];
                split; intros; lia.
           ++ rewrite length_app, length_REPLACEMENT; cbn [length] in *;
                split; intros; lia.
      * destruct (TextEncoder.is_low c);
          rewrite length_app, ?length_REPLACEMENT, ?length_three_bytes;
          cbn [length] in *; split; intros; lia.
Qed.

Lemma encode_length_ge s : length s <= length (TextEncoder.encode s).
Proof. apply (encode_length_fuel (length s)); lia. Qed.

Lemma encode_length_gt s :
  Exists (fun c => (128 <= c)%N) s -> length s < length (TextEncoder.encode s).
Proof. apply (encode_length_fuel (length s)); lia. Qed.

Section WriterFacts.
Variable JSON : Type.
Variable JSON_parse : jsstring -> option JSON.
Variable JSON_stringify : JSON -> option jsstring.

Local Abbreviation parseMessages := (Transport.parseMessages JSON_parse).
Local Abbreviation push := (Transport.push JSON_parse).
Local Abbreviation write := (Writer.write JSON_stringify).
Local Abbreviation writes := (Writer.writes JSON_stringify).

(** The writer counts bytes, the reader code units: a frame of the writer
    is read as a frame whose content takes what is missing from the text
    that follows. *)
Lemma writer_frame_as_read content more :
  let d := length (TextEncoder.encode content) - length content in
  d <= length more ->
  Writer.frame content ++ more
  = Transport.frame (content ++ firstn d more) ++ skipn d more.
Proof.
  intros d L.
  pose proof (encode_length_ge content) as Hge.
  unfold Writer.frame, Transport.frame.
  rewrite length_app, length_firstn, Nat.min_l by exact L.
  replace (length content + d) with (length (TextEncoder.encode content))
    by (unfold d; lia).
  rewrite <- !app_assoc, firstn_skipn; reflexivity.
Qed.

(** X8.  A message whose text is ASCII comes back from the reader as it
    went into the writer: when [JSON.parse] reads back what
    [JSON.stringify] prints, the messages written one after the other and
    cut into the texts of message events at arbitrary places are delivered
    by the reader, all of them, in order, and its buffer ends empty. *)
Theorem writer_reader_round_trip msgs texts errorCount :
  Forall (fun msg => exists content,
            JSON_stringify msg = Some content /\
            Forall (fun c => (c < 128)%N) content /\
            JSON_parse content = Some msg) msgs ->
  concat texts
  = concat (Writer.sent_texts (fst (writes (map (pair false) msgs) errorCount))) ->
  Transport.receive JSON_parse texts [] = (msgs, []) /\
  snd (writes (map (pair false) msgs) errorCount) = errorCount.
Proof.
  intros Hok E.
  assert (H : exists contents,
             Writer.sent_texts (fst (writes (map (pair false) msgs) errorCount))
             = map Transport.frame contents /\
             fold_right push [] contents = msgs /\
             snd (writes (map (pair false) msgs) errorCount) = errorCount).
  { clear E; induction Hok as [|msg msgs (content & Hs & Ha & Hp) _ IH].
    - exists []; repeat split.
    - destruct IH as (contents & Et & Ef & En).
      exists (content :: contents).
      cbn [map Writer.writes]; unfold Writer.write; rewrite Hs.
      destruct (Writer.writes _ _ _) as [effects n]; cbn [fst snd] in *.
      cbn [app Writer.sent_texts flat_map Writer.sent_text].
      fold (Writer.sent_texts effects); rewrite Et.
      cbn [map fold_right]; unfold Transport.push at 1; rewrite Ef, Hp.
      repeat split; auto.
      unfold Writer.frame, Transport.frame; rewrite (encode_ascii _ Ha).
      reflexivity. }
  destruct H as (contents & Et & Ef & En).
  split; [|exact En].
  rewrite Et in E.
  rewrite (receive_stream _ JSON_parse texts [] contents), Ef; [reflexivity | | exact E].
  destruct contents as [|c cs]; [reflexivity|].
  exists (Transport.frame c); split; [discriminate | reflexivity].
Qed.

(** X9.  The writer declares the length of the content in bytes of UTF-8
    and the reader counts code units.  With content outside ASCII the
    declared length is larger by some [d > 0]: the reader delivers nothing
    for the frame until [d] more code units have arrived, and then takes
    them, the beginning of what follows, into the content. *)
Theorem writer_reader_length_mismatch content more :
  let d := length (TextEncoder.encode content) - length content in
  (Exists (fun c => (128 <= c)%N) content -> 0 < d) /\
  (length more < d ->
   parseMessages (Writer.frame content ++ more)
   = ([], Writer.frame content ++ more)) /\
  (d <= length more ->
   parseMessages (Writer.frame content ++ more)
   = (push (content ++ firstn d more) (fst (parseMessages (skipn d more))),
      snd (parseMessages (skipn d more)))).
Proof.
  intros d; split; [|split].
  - intros H; apply encode_length_gt in H; unfold d; lia.
  - intros L; unfold Writer.frame.
    set (n := N.of_nat (length (TextEncoder.encode content))).
    set (h := js_of_bytes (Frame.header n)).
    rewrite <- !app_assoc.
    apply parseMessages_wait with (headerEnd := length h)
                                  (ds := js_of_bytes (Frame.decimal n)).
    + apply string_indexOf_after_block, header_units_no_CR.
    + rewrite firstn_exact; apply match_header.
    + rewrite parseInt_decimal, !length_app.
      change (length Transport.DELIMITER) with 4; unfold n, d in *; lia.
  - intros L; rewrite (writer_frame_as_read content more L).
    apply parseMessages_frame.
Qed.


End WriterFacts.

(* ------------------------------------------------------------------ *)
(** ** The reader and its callback *)

Section ReaderFacts.
Variable JSON : Type.
Variable JSON_parse : jsstring -> option JSON.

Local Abbreviation run := (Reader.run JSON_parse).
Local Abbreviation receive := (Transport.receive JSON_parse).

Lemma reader_run_app es1 : forall es2 st,
  run (es1 ++ es2) st
  = (fst (run es1 st) ++ fst (run es2 (snd (run es1 st))),
     snd (run es2 (snd (run es1 st)))).
Proof.
  induction es1 as [|e es1 IH]; intros es2 st.
  - cbn [app Reader.run fst snd]; destruct (Reader.run _ es2 st); reflexivity.
  - cbn [app Reader.run].
    destruct (Reader.handle _ e st) as [calls st'].
    rewrite IH; destruct (Reader.run _ es1 st') as [calls1 st1]; cbn [fst snd].
    destruct (Reader.run _ es2 st1); cbn [fst snd].
    rewrite app_assoc; reflexivity.
Qed.

(** Message events with the same callback throughout. *)
Lemma reader_run_messages texts : forall held who,
  run (map (@Reader.Message) texts) {| Reader.buffer := held; Reader.callback := who |}
  = (match who with
     | Some c => map (pair c) (fst (receive texts held))
     | None => []
     end,
     {| Reader.buffer := snd (receive texts held); Reader.callback := who |}).
Proof.
  induction texts as [|text texts IH]; intros held who.
  - destruct who; reflexivity.
  - cbn [map Reader.run Reader.handle Transport.receive Reader.buffer Reader.callback].
    destruct (Transport.on_message JSON_parse held text) as [messages remainder].
    rewrite IH.
    destruct (Transport.receive JSON_parse texts remainder) as [messages' held'].
    cbn [fst snd]; destruct who; [rewrite map_app|]; reflexivity.
Qed.

(** X11.  The reader decodes whether or not anyone listens: messages that
    arrive before [listen] are parsed, taken out of the buffer and given to
    no one, and [listen] does not bring them back.  The callback gets the
    messages of the texts that arrive after it was registered, decoded from
    the buffer as the earlier texts left it. *)
Theorem messages_before_listen_are_lost held before c after :
  fst (run (map (@Reader.Message) before ++ Reader.Listen c
            :: map (@Reader.Message) after)
           {| Reader.buffer := held; Reader.callback := None |})
  = map (pair c) (fst (receive after (snd (receive before held)))).
Proof.
  rewrite reader_run_app, reader_run_messages; cbn [fst snd app].
  cbn [Reader.run Reader.handle Reader.buffer].
  rewrite reader_run_messages; reflexivity.
Qed.

(** X12.  [dispose] does not look at which registration it belongs to: it
    clears the callback that is current.  After a second [listen], the
    [dispose] of the first registration leaves the reader without callback,
    and the messages that follow are given to no one. *)
Theorem stale_dispose_unregisters st first second texts :
  fst (run (Reader.Listen first :: Reader.Listen second :: Reader.Dispose
            :: map (@Reader.Message) texts) st)
  = [] /\
  Reader.callback
    (snd (run (Reader.Listen first :: Reader.Listen second :: Reader.Dispose
               :: map (@Reader.Message) texts) st))
  = None.
Proof.
  cbn [Reader.run Reader.handle Reader.buffer Reader.callback].
  rewrite reader_run_messages; split; reflexivity.
Qed.

End ReaderFacts.

(* ------------------------------------------------------------------ *)
(** ** The chat of the task pane *)

Lemma skip_spaces_nil s :
  Header.skip_spaces s = [] <-> forallb Header.is_space s = true.
Proof.
  induction s as [|c s IH]; cbn [Header.skip_spaces forallb]; [tauto|].
  destruct (Header.is_space c); cbn [andb]; [exact IH|].
  split; discriminate.
Qed.

Lemma skip_spaces_blank s :
  forallb Header.is_space (Header.skip_spaces s) = forallb Header.is_space s.
Proof.
  induction s as [|c s IH]; cbn [Header.skip_spaces forallb]; [reflexivity|].
  destruct (Header.is_space c) eqn:E; cbn [andb forallb]; [exact IH|].
  rewrite E; reflexivity.
Qed.

Lemma forallb_reverse (A : Type) (f : A -> bool) (l : list A) :
  forallb f (rev l) = forallb f l.
Proof.
  induction l as [|x l IH]; [reflexivity|].
  cbn [rev forallb]; rewrite forallb_app, IH; cbn [forallb].
  rewrite andb_true_r; apply andb_comm.
Qed.

(** [s.trim()] is the empty string exactly when [s] is white space. *)
Lemma trim_nil s : trim s = [] <-> forallb Header.is_space s = true.
Proof.
  unfold trim.
  rewrite <- (skip_spaces_blank s), <- (forallb_reverse _ Header.is_space (Header.skip_spaces s)).
  rewrite <- skip_spaces_nil.
  split; intros H; [|rewrite H; reflexivity].
  apply (f_equal (@rev N)) in H; rewrite rev_involutive in H; exact H.
Qed.

Lemma handle_answers e st :
  Chat.is_new_chat e = false -> answers st -> answers (Chat.handle e st).
Proof.
  unfold answers; destruct e as [value|now|now|]; cbn [Chat.is_new_chat Chat.handle];
    intros Hn H; try discriminate.
  - exact H.
  - unfold Chat.handleSend; destruct (trim (Chat.inputValue st)); [exact H|].
    cbn [Chat.messages Chat.timers].
    rewrite !filter_app, !map_app; cbn [filter Chat.from Chat.sender map].
    rewrite app_nil_r, app_assoc, H; reflexivity.
  - destruct (Chat.timers st) as [|userMessage timers'] eqn:E; [rewrite E; exact H|].
    cbn [Chat.messages Chat.timers].
    rewrite !filter_app, !map_app; cbn [filter Chat.from Chat.sender Chat.reply map].
    rewrite app_nil_r, <- app_assoc; exact H.
Qed.

(** X13.  [handleSend] does nothing exactly when the input is empty or
    white space: the state, input included, is what it was.  Any other
    input is sent: the text, as typed, is appended as a user message, the
    input is emptied, the typing flag is set, and the timer of the reply is
    started; when that timer is the only one and fires, the reply
    "You said: ..." follows the message. *)
Theorem handleSend_sends_unless_blank now st :
  let userMessage :=
    {| Chat.id := now; Chat.text := Chat.inputValue st;
       Chat.sender := Chat.user; Chat.timestamp := now |} in
  (Chat.handleSend now st = st
   <-> forallb Header.is_space (Chat.inputValue st) = true) /\
  (forallb Header.is_space (Chat.inputValue st) = false ->
   Chat.handleSend now st
   = {| Chat.messages := Chat.messages st ++ [userMessage];
        Chat.inputValue := [];
        Chat.isTyping := true;
        Chat.timers := Chat.timers st ++ [userMessage] |} /\
   forall later,
     Chat.timers st = [] ->
     Chat.messages (Chat.run [Chat.SendClicked now; Chat.TimerFires later] st)
     = Chat.messages st ++ [userMessage; Chat.reply userMessage later]).
Proof.
  intros userMessage.
  assert (B : trim (Chat.inputValue st) = []
              <-> forallb Header.is_space (Chat.inputValue st) = true)
    by apply trim_nil.
  split.
  - rewrite <- B; unfold Chat.handleSend.
    destruct (trim (Chat.inputValue st)) as [|c rest]; [tauto|].
    split; [|discriminate].
    intros H; apply (f_equal (fun s => length (Chat.messages s))) in H.
    cbn [Chat.messages] in H; rewrite length_app in H; cbn [length] in H; lia.
  - intros Hn.
    assert (E : Chat.handleSend now st
                = {| Chat.messages := Chat.messages st ++ [userMessage];
                     Chat.inputValue := [];
                     Chat.isTyping := true;
                     Chat.timers := Chat.timers st ++ [userMessage] |}).
    { unfold Chat.handleSend.
      destruct (trim (Chat.inputValue st)) as [|c rest]; [|reflexivity].
      destruct B as [B _]; rewrite (B eq_refl) in Hn; discriminate. }
    split; [exact E|].
    intros later Ht; unfold Chat.run; cbn [fold_left Chat.handle].
    rewrite E, Ht; cbn [Chat.timers Chat.messages app].
    rewrite <- app_assoc; reflexivity.
Qed.

(** X14.  As long as the chat is not cleared, the conversation answers
    itself in order: the texts of the assistant messages, followed by the
    replies still waiting for their timer, are the echoes "You said: ..."
    of the user messages, one for each, in the order they were sent,
    whatever the order of input changes, sends and timers. *)
Theorem replies_echo_user_messages es :
  forallb (fun e => negb (Chat.is_new_chat e)) es = true ->
  answers (Chat.run es Chat.initial).
Proof.
  assert (H : forall st, forallb (fun e => negb (Chat.is_new_chat e)) es = true ->
                         answers st -> answers (Chat.run es st)).
  { unfold Chat.run; induction es as [|e es IH]; intros st Hes Hst; [exact Hst|].
    cbn [forallb] in Hes; apply andb_true_iff in Hes as [He Hes].
    cbn [fold_left]; apply IH; [exact Hes|].
    apply handle_answers; [|exact Hst].
    destruct (Chat.is_new_chat e); [discriminate | reflexivity]. }
  intros Hes; apply H; [exact Hes | reflexivity].
Qed.

Lemma run_timers nows : forall st,
  Chat.messages (Chat.run (map Chat.TimerFires nows) st)
  = Chat.messages st
    ++ map (fun p => Chat.reply (fst p) (snd p)) (combine (Chat.timers st) nows).
Proof.
  unfold Chat.run; induction nows as [|now nows IH]; intros st.
  - cbn [map fold_left]; destruct (Chat.timers st); cbn [combine map];
      rewrite app_nil_r; reflexivity.
  - cbn [map fold_left]; rewrite IH; cbn [Chat.handle].
    destruct (Chat.timers st) as [|userMessage timers'] eqn:E.
    + rewrite E; reflexivity.
    + cbn [Chat.messages Chat.timers combine map fst snd].
      rewrite <- app_assoc; reflexivity.
Qed.

(** X15.  "New chat" empties the list of messages and leaves the timers
    running: the replies to the messages that were cleared arrive in the
    new chat, each when its timer fires, with no user message before
    them. *)
Theorem new_chat_keeps_pending_replies st nows :
  Chat.messages (Chat.run (Chat.NewChat :: map Chat.TimerFires nows) st)
  = map (fun p => Chat.reply (fst p) (snd p)) (combine (Chat.timers st) nows).
Proof.
  change (Chat.run (Chat.NewChat :: map Chat.TimerFires nows) st)
    with (Chat.run (map Chat.TimerFires nows) (Chat.handle Chat.NewChat st)).
  rewrite run_timers; reflexivity.
Qed.

(* ------------------------------------------------------------------ *)
(** ** The permission service *)

Lemma str_eqb_true a b : str_eqb a b = true <-> a = b.
Proof. unfold str_eqb; destruct (list_eq_dec N.eq_dec a b); split; congruence. Qed.

Lemma str_eqb_refl a : str_eqb a a = true.
Proof. apply str_eqb_true; reflexivity. Qed.

Lemma str_eqb_length a b : length a <> length b -> str_eqb a b = false.
Proof.
  intros H; destruct (str_eqb a b) eqn:E; [|reflexivity].
  apply str_eqb_true in E; subst; congruence.
Qed.

Lemma startsWith_spec prefix : forall s,
  startsWith s prefix = true <-> exists rest, s = prefix ++ rest.
Proof.
  unfold startsWith; induction prefix as [|p prefix IH]; intros s.
  - split; [intros _; exists s; reflexivity | reflexivity].
  - destruct s as [|c s]; cbn [Seq.starts_with].
    + split; [discriminate | intros [rest H]; discriminate].
    + split.
      * intros H; apply andb_true_iff in H as [Hc Hr].
        apply N.eqb_eq in Hc; apply IH in Hr as [rest ->].
        exists rest; subst; reflexivity.
      * intros [rest H]; injection H as -> ->.
        apply andb_true_iff; split; [apply N.eqb_refl|].
        apply IH; exists rest; reflexivity.
Qed.

Lemma endsWith_spec s suffix :
  endsWith s suffix = true <-> exists front, s = front ++ suffix.
Proof.
  unfold endsWith; fold (startsWith (rev s) (rev suffix)).
  rewrite startsWith_spec; split.
  - intros [rest H]; exists (rev rest).
    apply (f_equal (@rev N)) in H.
    rewrite rev_involutive, rev_app_distr, rev_involutive in H; exact H.
  - intros [front ->]; exists (rev front); apply rev_app_distr.
Qed.

Lemma truthy_some x : truthy (Some x) = true <-> x <> [].
Proof. destruct x; cbn [truthy]; split; congruence. Qed.

Lemma or_else_truthy a b : truthy a = true -> or_else a b = a.
Proof. unfold or_else; intros ->; reflexivity. Qed.

Lemma or_else_falsy a b : truthy a = false -> or_else a b = b.
Proof. unfold or_else; intros ->; reflexivity. Qed.

Lemma normPath_ends p : endsWith (Permission.normPath p) Permission.SLASH = true.
Proof.
  unfold Permission.normPath.
  destruct (endsWith p Permission.SLASH) eqn:E; [exact E|].
  apply endsWith_spec; exists p; reflexivity.
Qed.

Lemma normPath_idempotent p :
  Permission.normPath (Permission.normPath p) = Permission.normPath p.
Proof. unfold Permission.normPath at 1; rewrite normPath_ends; reflexivity. Qed.

Lemma normPath_nonempty p : Permission.normPath p <> [].
Proof.
  unfold Permission.normPath; destruct (endsWith p Permission.SLASH) eqn:E.
  - intros ->; discriminate.
  - destruct p; discriminate.
Qed.

Lemma isUnder_below prefix rest :
  Permission.isUnder (Permission.normPath prefix ++ rest) prefix = true.
Proof.
  unfold Permission.isUnder; apply orb_true_iff; right.
  apply startsWith_spec; exists rest; reflexivity.
Qed.

Lemma same_rule_true a b : Permission.same_rule a b = true <-> a = b.
Proof.
  destruct a as [ka pa], b as [kb pb]; unfold Permission.same_rule;
    cbn [Permission.rule_kind Permission.pathPrefix].
  rewrite andb_true_iff, !str_eqb_true; split; [intros [-> ->] | intros [= -> ->]]; auto.
Qed.

Lemma getRules_addRule rule s :
  Permission.getRules (Permission.addRule rule s)
  = if existsb (fun r => Permission.same_rule r (saved rule)) (Permission.getRules s)
    then Permission.getRules s
    else Permission.getRules s ++ [saved rule].
Proof.
  unfold Permission.addRule; cbv zeta; fold (saved rule).
  destruct (existsb _ (Permission.getRules s)); reflexivity.
Qed.

Lemma addRule_keeps rule s :
  Permission.cwd (Permission.addRule rule s) = Permission.cwd s /\
  Permission.allowAll (Permission.addRule rule s) = Permission.allowAll s.
Proof.
  unfold Permission.addRule; cbv zeta.
  destruct (existsb _ (Permission.getRules s)); split; reflexivity.
Qed.

Lemma find_rule_app request a b :
  Permission.find_rule request (a ++ b)
  = Permission.find_rule request a || Permission.find_rule request b.
Proof.
  induction a as [|rule a IH]; [reflexivity|].
  cbn [app Permission.find_rule]; cbv zeta.
  destruct (negb _); [exact IH|].
  destruct (Permission.under _ _); [reflexivity|].
  destruct (_ && _); [reflexivity | exact IH].
Qed.

Lemma find_rule_In request rule rules :
  In rule rules -> Permission.find_rule request [rule] = true ->
  Permission.find_rule request rules = true.
Proof.
  intros Hin H; apply in_split in Hin as (a & b & ->).
  change (rule :: b) with ([rule] ++ b).
  rewrite !find_rule_app, H, orb_true_r; reflexivity.
Qed.

(** [evaluate] is what it answers without saved rules, or else what the
    saved rules give. *)
Lemma evaluate_split request s :
  Permission.evaluate request s
  = Permission.evaluate request (Permission.clearRules s)
    || Permission.find_rule request (Permission.getRules s).
Proof.
  unfold Permission.evaluate; cbv zeta.
  cbn [Permission.clearRules Permission.with_stored Permission.cwd
       Permission.allowAll Permission.getRules Permission.stored
       Permission.find_rule].
  destruct (Permission.cwd s) as [dir|]; [|reflexivity].
  destruct (_ && _ && _); [reflexivity|].
  destruct (_ && _ && _ && _); reflexivity.
Qed.

Lemma evaluate_addRule request rule s :
  Permission.evaluate request (Permission.addRule rule s)
  = Permission.evaluate request s || Permission.find_rule request [saved rule].
Proof.
  rewrite (evaluate_split request (Permission.addRule rule s)),
          (evaluate_split request s), getRules_addRule.
  replace (Permission.evaluate request (Permission.clearRules (Permission.addRule rule s)))
    with (Permission.evaluate request (Permission.clearRules s))
    by (unfold Permission.addRule; cbv zeta;
        destruct (existsb _ (Permission.getRules s)); reflexivity).
  destruct (existsb _ (Permission.getRules s)) eqn:E.
  - destruct (Permission.find_rule request [saved rule]) eqn:F;
      [|rewrite orb_false_r; reflexivity].
    apply existsb_exists in E as (r & Hin & Hr); apply same_rule_true in Hr; subst r.
    rewrite (find_rule_In request (saved rule) _ Hin F), !orb_true_r; reflexivity.
  - rewrite find_rule_app, orb_assoc; reflexivity.
Qed.

(** The prefix that the decision "always" saves is never missing. *)
Lemma always_adds request s :
  exists prefix,
    Permission.always request s
    = Permission.addRule {| Permission.rule_kind := Permission.kind request;
                            Permission.pathPrefix := prefix |} s.
Proof.
  unfold Permission.always; cbv zeta.
  destruct (or_else _ (Some Permission.SLASH)) as [prefix|] eqn:E;
    [exists prefix; reflexivity|].
  exfalso; unfold or_else at 1 in E.
  destruct (truthy _) eqn:T; [rewrite E in T|]; discriminate.
Qed.

(** One saved rule of kind shell answers every shell request. *)
Lemma find_rule_shell request prefix :
  Permission.kind request = Permission.SHELL ->
  Permission.find_rule request
    [{| Permission.rule_kind := Permission.SHELL; Permission.pathPrefix := prefix |}]
  = true.
Proof.
  intros K; cbn [Permission.find_rule Permission.rule_kind Permission.pathPrefix];
    cbv zeta.
  rewrite K, str_eqb_refl; cbn [negb andb].
  destruct (Permission.under _ _); reflexivity.
Qed.

(** X16.  The test for "under a directory" compares text, with the slash
    as the only boundary: a path is under [prefix] when it is [prefix]
    itself or continues [prefix] and a slash, so a sibling whose name only
    begins like the directory ([/home/username] for [/home/user]) is not
    under it, and neither is [prefix] itself followed by a slash when
    [prefix] is given without it. *)
Theorem isUnder_needs_the_slash prefix more :
  endsWith prefix Permission.SLASH = false ->
  more <> [] ->
  startsWith more Permission.SLASH = false ->
  Permission.isUnder (prefix ++ more) prefix = false /\
  Permission.isUnder prefix (prefix ++ Permission.SLASH) = false /\
  forall rest,
    Permission.isUnder (prefix ++ Permission.SLASH ++ rest) prefix = true.
Proof.
  intros He Hm Hs; split; [|split].
  - unfold Permission.isUnder, Permission.normPath; rewrite He.
    rewrite str_eqb_length
      by (rewrite length_app; destruct more; [congruence | cbn [length]; lia]).
    cbn [orb]; destruct (startsWith (prefix ++ more) _) eqn:E; [|reflexivity].
    apply startsWith_spec in E as [rest E]; rewrite <- app_assoc in E.
    apply app_inv_head in E.
    assert (startsWith more Permission.SLASH = true)
      by (apply startsWith_spec; exists rest; exact E).
    congruence.
  - unfold Permission.isUnder.
    rewrite str_eqb_length by (rewrite length_app; cbn [length Permission.SLASH]; lia).
    cbn [orb]; destruct (startsWith prefix _) eqn:E; [|reflexivity].
    apply startsWith_spec in E as [rest E].
    apply (f_equal (@length N)) in E.
    pose proof (normPath_nonempty (prefix ++ Permission.SLASH)) as Hn.
    unfold Permission.normPath in *.
    destruct (endsWith (prefix ++ Permission.SLASH) Permission.SLASH);
      rewrite !length_app in E; cbn [length Permission.SLASH] in E; lia.
  - intros rest.
    pose proof (isUnder_below prefix rest) as H.
    unfold Permission.normPath in H; rewrite He, <- app_assoc in H; exact H.
Qed.

(** X17.  A read request is approved without asking, with allow-all off
    and no saved rule, as soon as the text of its path begins with the
    working directory and a slash.  What follows the slash is not looked
    at: a path that leaves the directory again through [..] segments is
    approved as well. *)
Theorem read_under_cwd_is_textual request s dir rest :
  Permission.cwd s = Some dir ->
  dir <> [] ->
  Permission.kind request = Permission.READ ->
  Permission.path request = Some (Permission.normPath dir ++ rest) ->
  Permission.evaluate request s = true.
Proof.
  intros Hc Hd Hk Hp; unfold Permission.evaluate; cbv zeta.
  rewrite Hc, Hk, Hp, str_eqb_refl.
  assert (T : truthy (Some (Permission.normPath dir ++ rest)) = true).
  { apply truthy_some; intros E; apply app_eq_nil in E as [E _].
    exact (normPath_nonempty dir E). }
  assert (Td : truthy (Some dir) = true) by (apply truthy_some; exact Hd).
  unfold Permission.under; rewrite T, Td, isUnder_below; cbn [andb].
  destruct (_ && _); reflexivity.
Qed.

(** X18.  Without a working directory (none, or the empty string) nothing
    is approved but by a saved rule: allow-all has no effect, whatever the
    request, and after [clearRules], or with an item in the storage that
    does not parse, every request goes to the user. *)
Theorem no_cwd_no_rules_asks_the_user request s :
  truthy (Permission.cwd s) = false ->
  Permission.evaluate request (Permission.clearRules s) = false /\
  (Permission.stored s = Permission.Unparsable ->
   Permission.evaluate request s = false) /\
  Permission.evaluate request s
  = Permission.find_rule request (Permission.getRules s).
Proof.
  intros Hc.
  assert (H : forall s', Permission.cwd s' = Permission.cwd s ->
                         Permission.evaluate request s'
                         = Permission.find_rule request (Permission.getRules s')).
  { intros s' E; unfold Permission.evaluate; cbv zeta; rewrite E.
    destruct (Permission.cwd s) as [[|c dir]|]; try discriminate; [|reflexivity].
    cbn [truthy]; rewrite !andb_false_r; cbn [andb]; reflexivity. }
  split; [|split].
  - rewrite H; reflexivity.
  - intros E; rewrite H by reflexivity.
    unfold Permission.getRules; rewrite E; reflexivity.
  - apply H; reflexivity.
Qed.

(** X19.  "Always" on one shell request approves every later shell
    request: the rule saved for it has kind shell, and a saved shell rule
    answers a shell request whatever its command and its path. *)
Theorem always_shell_approves_every_shell first later s :
  Permission.kind first = Permission.SHELL ->
  Permission.kind later = Permission.SHELL ->
  Permission.evaluate later (Permission.always first s) = true.
Proof.
  intros K1 K2; destruct (always_adds first s) as [prefix ->].
  rewrite evaluate_addRule; unfold saved;
    cbn [Permission.rule_kind Permission.pathPrefix].
  rewrite K1, (find_rule_shell later _ K2), orb_true_r; reflexivity.
Qed.

(** The rule saved by "always" for a request that names a file. *)
Lemma always_on_path request s p :
  or_else (Permission.path request) (Permission.fileName request) = Some p ->
  p <> [] ->
  Permission.always request s
  = Permission.addRule {| Permission.rule_kind := Permission.kind request;
                          Permission.pathPrefix := p |} s.
Proof.
  intros Hp Hn; unfold Permission.always; cbv zeta; rewrite Hp.
  assert (T : truthy (Some p) = true) by (apply truthy_some; exact Hn).
  rewrite (or_else_truthy (Some p) (Permission.cwd s) T).
  rewrite (or_else_truthy (Some p) (Some Permission.SLASH) T); reflexivity.
Qed.

(** X20.  "Always" does not cover the request it was given for.  When the
    user was asked about a request that is not a shell request and names a
    file (a path not ending in a slash), the saved prefix is the path with
    a slash added, the path itself is not under it, and the same request
    is put to the user again. *)
Theorem always_does_not_cover_its_own_path request s p :
  or_else (Permission.path request) (Permission.fileName request) = Some p ->
  p <> [] ->
  endsWith p Permission.SLASH = false ->
  Permission.kind request <> Permission.SHELL ->
  Permission.evaluate request s = false ->
  Permission.evaluate request (Permission.always request s) = false.
Proof.
  intros Hp Hn He Hk Hs.
  rewrite (always_on_path request s p Hp Hn), evaluate_addRule, Hs; cbn [orb].
  unfold saved; cbn [Permission.find_rule Permission.rule_kind Permission.pathPrefix];
    cbv zeta.
  rewrite str_eqb_refl, Hp; cbn [negb].
  rewrite or_else_truthy by (apply truthy_some; exact Hn).
  unfold Permission.under.
  assert (T : truthy (Some p) = true) by (apply truthy_some; exact Hn).
  rewrite T; cbn [andb].
  assert (U : Permission.isUnder p (Permission.normPath p) = false).
  { unfold Permission.isUnder; rewrite normPath_idempotent.
    unfold Permission.normPath; rewrite He.
    rewrite str_eqb_length by (rewrite length_app; cbn [length Permission.SLASH]; lia).
    cbn [orb]; destruct (startsWith p _) eqn:E; [|reflexivity].
    apply startsWith_spec in E as [rest E]; apply (f_equal (@length N)) in E.
    rewrite !length_app in E; cbn [length Permission.SLASH] in E; lia. }
  rewrite U.
  destruct (str_eqb (Permission.kind request) Permission.SHELL) eqn:K;
    [apply str_eqb_true in K; contradiction | reflexivity].
Qed.

(** X21.  "Always" covers what is below: after it, a request of the same
    kind for a path that continues the saved prefix (the chosen path, with
    a slash added when it has none) is approved without asking, whatever
    the service held before. *)
Theorem always_covers_paths_below first later s prefix rest :
  or_else (or_else (or_else (Permission.path first) (Permission.fileName first))
                   (Permission.cwd s))
          (Some Permission.SLASH) = Some prefix ->
  Permission.kind later = Permission.kind first ->
  or_else (Permission.path later) (Permission.fileName later)
  = Some (Permission.normPath prefix ++ rest) ->
  Permission.evaluate later (Permission.always first s) = true.
Proof.
  intros Hc Hk Hp; unfold Permission.always; cbv zeta; rewrite Hc.
  rewrite evaluate_addRule; unfold saved;
    cbn [Permission.find_rule Permission.rule_kind Permission.pathPrefix]; cbv zeta.
  rewrite Hk, str_eqb_refl, Hp; cbn [negb].
  assert (T : truthy (Some (Permission.normPath prefix ++ rest)) = true).
  { apply truthy_some; intros E; apply app_eq_nil in E as [E _].
    exact (normPath_nonempty prefix E). }
  rewrite or_else_truthy by exact T.
  unfold Permission.under; rewrite T; cbn [andb].
  rewrite <- (normPath_idempotent prefix) at 1.
  rewrite isUnder_below, orb_true_r; reflexivity.
Qed.

(** X22.  "Always" on a request that names no file, in a session without
    working directory, saves the root: every later request of that kind
    for an absolute path is approved. *)
Theorem always_without_path_covers_root first later s rest :
  truthy (Permission.path first) = false ->
  truthy (Permission.fileName first) = false ->
  truthy (Permission.cwd s) = false ->
  Permission.kind later = Permission.kind first ->
  or_else (Permission.path later) (Permission.fileName later)
  = Some (Permission.SLASH ++ rest) ->
  Permission.evaluate later (Permission.always first s) = true.
Proof.
  intros Hp Hf Hc Hk Hl; unfold Permission.always; cbv zeta.
  rewrite (or_else_falsy _ _ Hp), (or_else_falsy _ _ Hf), (or_else_falsy _ _ Hc).
  rewrite evaluate_addRule; unfold saved;
    cbn [Permission.find_rule Permission.rule_kind Permission.pathPrefix]; cbv zeta.
  rewrite Hk, str_eqb_refl, Hl; cbn [negb].
  assert (T : truthy (Some (Permission.SLASH ++ rest)) = true) by reflexivity.
  rewrite or_else_truthy by exact T.
  unfold Permission.under; rewrite T; cbn [andb].
  change (Permission.SLASH ++ rest)
    with (Permission.normPath (Permission.normPath Permission.SLASH) ++ rest) at 1.
  rewrite isUnder_below, orb_true_r; reflexivity.
Qed.

Lemma existsb_same_rule rule rules :
  existsb (fun r => Permission.same_rule r rule) rules = true <-> In rule rules.
Proof.
  rewrite existsb_exists; split.
  - intros (r & Hin & Hr); apply same_rule_true in Hr; subst; exact Hin.
  - intros Hin; exists rule; split; [exact Hin | apply same_rule_true; reflexivity].
Qed.

(** X23.  [addRule] saves a rule, once and normalised.  After it the rule,
    with its prefix ending in a slash, is among the saved rules.  When it
    was there already nothing changes; when it was not, the store holds the
    rules saved before, in their order, and the new rule after them.
    Adding again the rule just added changes nothing, a prefix given with
    or without its final slash is the same rule, rules without duplicates
    stay so, and the working directory and allow-all are not touched. *)
Theorem addRule_saves_once rule s :
  In (saved rule) (Permission.getRules (Permission.addRule rule s)) /\
  (In (saved rule) (Permission.getRules s) -> Permission.addRule rule s = s) /\
  (~ In (saved rule) (Permission.getRules s) ->
   Permission.addRule rule s
   = Permission.with_stored s
       (Permission.RulesText (Permission.getRules s ++ [saved rule]))) /\
  Permission.addRule rule (Permission.addRule rule s) = Permission.addRule rule s /\
  Permission.addRule (saved rule) s = Permission.addRule rule s /\
  (NoDup (Permission.getRules s) ->
   NoDup (Permission.getRules (Permission.addRule rule s))) /\
  Permission.cwd (Permission.addRule rule s) = Permission.cwd s /\
  Permission.allowAll (Permission.addRule rule s) = Permission.allowAll s.
Proof.
  assert (Hold : In (saved rule) (Permission.getRules s) ->
                 Permission.addRule rule s = s).
  { intros Hin; apply existsb_same_rule in Hin.
    unfold Permission.addRule; cbv zeta; fold (saved rule); rewrite Hin.
    reflexivity. }
  assert (Hnew : ~ In (saved rule) (Permission.getRules s) ->
                 Permission.addRule rule s
                 = Permission.with_stored s
                     (Permission.RulesText (Permission.getRules s ++ [saved rule]))).
  { intros Hn; unfold Permission.addRule; cbv zeta; fold (saved rule).
    destruct (existsb _ (Permission.getRules s)) eqn:E; [|reflexivity].
    apply existsb_same_rule in E; contradiction. }
  assert (Hin : In (saved rule) (Permission.getRules (Permission.addRule rule s))).
  { rewrite getRules_addRule.
    destruct (existsb _ (Permission.getRules s)) eqn:E.
    - apply existsb_same_rule; exact E.
    - apply in_or_app; right; left; reflexivity. }
  split; [exact Hin|]; split; [exact Hold|]; split; [exact Hnew|].
  split; [|split; [|split]].
  - unfold Permission.addRule at 1; cbv zeta; fold (saved rule).
    apply existsb_same_rule in Hin; rewrite Hin; reflexivity.
  - unfold Permission.addRule; cbv zeta.
    unfold saved; cbn [Permission.rule_kind Permission.pathPrefix].
    rewrite normPath_idempotent; reflexivity.
  - intros Hd; rewrite getRules_addRule.
    destruct (existsb _ (Permission.getRules s)) eqn:E; [exact Hd|].
    apply NoDup_app; [exact Hd | constructor; [intros [] | constructor] |].
    intros r Hr [<- | []].
    apply existsb_same_rule in Hr; congruence.
  - apply addRule_keeps.
Qed.

(** X24.  [removeRule] is [splice(index, 1)]: the index of a rule that was
    just added is the number of rules before it, and removing there gives
    back the rules as they were; an index past the end removes nothing;
    the index -1 removes the last rule. *)
Theorem removeRule_is_splice rule s :
  existsb (fun r => Permission.same_rule r (saved rule)) (Permission.getRules s)
  = false ->
  let s' := Permission.addRule rule s in
  Permission.getRules
    (Permission.removeRule (Z.of_nat (length (Permission.getRules s))) s')
  = Permission.getRules s /\
  Permission.getRules (Permission.removeRule (-1) s') = Permission.getRules s /\
  forall index, (Z.of_nat (length (Permission.getRules s')) <= index)%Z ->
    Permission.getRules (Permission.removeRule index s') = Permission.getRules s'.
Proof.
  intros E s'.
  assert (R : Permission.getRules s' = Permission.getRules s ++ [saved rule])
    by (unfold s'; rewrite getRules_addRule, E; reflexivity).
  unfold Permission.removeRule;
    cbn [Permission.getRules Permission.with_stored Permission.stored].
  fold (Permission.getRules s'); rewrite R.
  set (rules := Permission.getRules s).
  unfold Permission.splice1; cbv zeta; rewrite length_app; cbn [length].
  split; [|split].
  - destruct (Z.ltb_spec (Z.of_nat (length rules)) 0); [lia|].
    rewrite Z.min_l by lia; rewrite Nat2Z.id.
    rewrite firstn_app, firstn_all, Nat.sub_diag; cbn [firstn].
    rewrite skipn_all2 by (rewrite length_app; cbn [length]; lia).
    rewrite !app_nil_r; reflexivity.
  - cbn [Z.ltb Z.compare].
    replace (Z.to_nat (Z.max (Z.of_nat (length rules + 1) + -1) 0))
      with (length rules) by lia.
    rewrite firstn_app, firstn_all, Nat.sub_diag; cbn [firstn].
    rewrite skipn_all2 by (rewrite length_app; cbn [length]; lia).
    rewrite !app_nil_r; reflexivity.
  - intros index L.
    destruct (Z.ltb_spec index 0); [lia|].
    rewrite Z.min_r by lia; rewrite Nat2Z.id.
    rewrite firstn_all2 by (rewrite length_app; cbn [length]; lia).
    rewrite skipn_all2 by (rewrite length_app; cbn [length]; lia).
    apply app_nil_r.
Qed.

(* ================================================================== *)
(** * Examples

    The theorems above hold for any [JSON.parse], preview and URL parser.
    The examples run them on the sample instances. *)

Lemma framing_round_trip_witness :
  concat three_chunks = Frame.stream [a1] /\
  sends (fst (Proxy.feed sample_parse sample_preview OPEN three_chunks connected))
  = [Frame.encode a1] /\
  buffer (snd (Proxy.feed sample_parse sample_preview OPEN three_chunks connected))
  = [].
Proof.
  split; [reflexivity|].
  destruct (framing_round_trip_within_cap _ sample_parse sample_preview
              [a1] three_chunks eq_refl) as (_ & H & _).
  apply H; unfold Proxy.MAX_ITERATIONS; simpl; lia.
Defined.

(** C1, as stated, fails: of a hundred and one frames that arrive in one
    chunk the first hundred are sent, and the last stays in the buffer until
    the next chunk event.  What is sent is neither the sequence of the
    frames nor that of their payloads. *)
Lemma round_trip_fails_past_cap :
  let result :=
    Proxy.feed sample_parse sample_preview OPEN [Frame.stream burst] connected in
  concat [Frame.stream burst] = Frame.stream burst /\
  sends (fst result) = map Frame.encode (firstn 100 burst) /\
  buffer (snd result) = Frame.encode (bytes "{}") /\
  sends (fst result) <> map Frame.encode burst /\
  sends (fst result) <> burst.
Proof.
  cbv zeta.
  assert (E : sends (fst (Proxy.feed sample_parse sample_preview OPEN
                            [Frame.stream burst] connected))
              = map Frame.encode (firstn 100 burst)) by (vm_compute; reflexivity).
  split; [vm_compute; reflexivity|].
  split; [exact E|].
  split; [vm_compute; reflexivity|].
  rewrite E; split; intros H; apply (f_equal (@length Buffer)) in H;
    vm_compute in H; discriminate.
Qed.



Lemma malformed_header_resilience_witness :
  (sends (fst (Proxy.on_stdout_data sample_parse sample_preview OPEN
                 garbage_then_frame connected))
   = [Frame.encode (bytes "{}")] /\
   buffer (snd (Proxy.on_stdout_data sample_parse sample_preview OPEN
                  garbage_then_frame connected))
   = []) /\
  (Transport.on_message sample_parse [] (js_of_bytes garbage_then_frame)
   = ([], js_of_bytes garbage_then_frame) /\
   Transport.receive sample_parse [Transport.frame (js "{}")]
                     (js_of_bytes garbage_then_frame)
   = ([], js_of_bytes garbage_then_frame ++ Transport.frame (js "{}"))).
Proof.
  destruct (malformed_header_proxy_skips_reader_stalls
              jsstring sample_parse sample_preview) as [Hproxy Hreader].
  split.
  - apply (Hproxy connected garbage_then_frame 7 (bytes "{}")); reflexivity.
  - destruct (Hreader [] (js_of_bytes garbage_then_frame) 7 (js "{}")
                eq_refl eq_refl eq_refl) as [H1 H2].
    split; [exact H1 | exact (H2 [Transport.frame (js "{}")])].
Defined.

Lemma iteration_cap_fairness_witness :
  (sends (fst (Proxy.on_stdout_data sample_parse sample_preview OPEN
                 (Frame.stream burst) connected))
   = map Frame.encode (firstn Proxy.MAX_ITERATIONS burst) /\
   buffer (snd (Proxy.on_stdout_data sample_parse sample_preview OPEN
                  (Frame.stream burst) connected))
   = Frame.stream (skipn Proxy.MAX_ITERATIONS burst) ++ []) /\
  Transport.parseMessages sample_parse
    (concat (map Transport.frame (map js_of_bytes burst)) ++ [])
  = (map js_of_bytes burst ++ [], []).
Proof.
  assert (L : Proxy.MAX_ITERATIONS < length burst)
    by (unfold Proxy.MAX_ITERATIONS, burst; rewrite repeat_length; lia).
  destruct (iteration_cap_fairness jsstring sample_parse sample_preview)
    as [Hproxy Hreader].
  split.
  - destruct (Hproxy connected (Frame.stream burst) burst []
                (eq_sym (app_nil_r (Frame.stream burst))) L) as (H1 & H2 & _).
    split; [exact H1 | exact H2].
  - apply (Hreader (map js_of_bytes burst) (map js_of_bytes burst) []).
    vm_compute; reflexivity.
Defined.

(** C5, as stated, fails on the reader: of a hundred and one frames in its
    buffer one call of [parseMessages] decodes all, one more than the cap,
    and leaves nothing for a next call. *)
Lemma reader_decodes_past_the_cap :
  let contents := map js_of_bytes burst in
  Proxy.MAX_ITERATIONS < length contents /\
  length (fst (Transport.parseMessages sample_parse
                 (concat (map Transport.frame contents)))) = 101 /\
  Transport.parseMessages sample_parse (concat (map Transport.frame contents))
  = (contents, []).
Proof.
  cbv zeta; split; [|split].
  - unfold Proxy.MAX_ITERATIONS, burst; rewrite length_map, repeat_length; lia.
  - vm_compute; reflexivity.
  - vm_compute; reflexivity.
Qed.


Lemma idempotent_kill_witness :
  let later := [WsError true; WsClosed true; WsClosed false] in
  let gone := [WsClosed false; WsError false] in
  killed connected = false /\
  (fst (Proxy.handle sample_parse sample_preview (WsClosed true) connected)
   = [ChildKill] /\
   kills (fst (Proxy.run sample_parse sample_preview later
                 (snd (Proxy.handle sample_parse sample_preview (WsClosed true)
                         connected))))
   = 0) /\
  Proxy.run sample_parse sample_preview gone connected
  = ([ChildKill; ChildKill], connected).
Proof.
  cbv zeta; split; [reflexivity|].
  destruct (idempotent_kill _ sample_parse sample_preview connected eq_refl)
    as [Hreached Hgone].
  split.
  - destruct (Hreached (WsClosed true) [WsError true; WsClosed true; WsClosed false]
                (or_introl eq_refl)) as (H1 & H2 & _).
    split; [exact H1 | exact H2].
  - destruct (Hgone [WsClosed false; WsError false]) as [H _]; [|exact H].
    constructor; [left; reflexivity|].
    constructor; [right; reflexivity | constructor].
Defined.

(** C7, as stated, fails when the child is gone before the socket closes:
    the close event calls [child.kill()], no signal reaches the child and
    [child.killed] stays unset, and the error event that follows calls
    [child.kill()] again.  In both proxies. *)
Lemma kill_attempted_again_when_child_is_gone :
  let es := [ChildExit (Some 0%Z); WsClosed false; WsError false] in
  kills (fst (Proxy.run sample_parse sample_preview es connected)) = 2 /\
  killed (snd (Proxy.run sample_parse sample_preview es connected)) = false /\
  kills (fst (RawProxy.run es connected)) = 2 /\
  killed (snd (RawProxy.run es connected)) = false.
Proof.
  cbv zeta; split; [|split; [|split]]; vm_compute; reflexivity.
Qed.



Lemma upgrade_routing_witness :
  let copilot := {| Upgrade.url := js "/api/copilot?session=1";
                    Upgrade.host := Some (js "localhost:3000") |} in
  let hmr := {| Upgrade.url := js "/vite-hmr";
                Upgrade.host := Some (js "localhost:3000") |} in
  let hmr_bad_host := {| Upgrade.url := js "/vite-hmr";
                         Upgrade.host := Some (js "bad host") |} in
  Upgrade.upgradeHandler sample_pathname copilot = Upgrade.Returns [copilot] /\
  Upgrade.upgradeHandler sample_pathname hmr = Upgrade.Returns [] /\
  Upgrade.upgradeHandler sample_pathname hmr_bad_host = Upgrade.Throws.
Proof.
  cbv zeta; split; [|split].
  - apply (upgrade_routing sample_pathname); reflexivity.
  - apply (upgrade_routing sample_pathname).
    exists (js "/vite-hmr"); split; [reflexivity | discriminate].
  - apply (upgrade_routing sample_pathname); reflexivity.
Defined.

Lemma upgrade_throws_witness :
  let request := {| Upgrade.url := js "/api/copilot";
                    Upgrade.host := Some (js "bad host") |} in
  sample_pathname (Upgrade.url request) (Upgrade.base request) = None /\
  Upgrade.upgradeHandler sample_pathname request = Upgrade.Throws.
Proof.
  cbv zeta; split; [reflexivity|].
  apply (upgrade_throws_on_invalid_url sample_pathname); reflexivity.
Defined.

Lemma parseMessages_stalls_witness :
  Transport.on_message sample_parse (js_of_bytes garbage_then_frame) (js "{}")
  = ([], js_of_bytes garbage_then_frame ++ js "{}").
Proof.
  apply (parseMessages_stalls_on_malformed_header _ sample_parse
           (js_of_bytes garbage_then_frame) 7 (js "{}")); reflexivity.
Defined.

Lemma reader_round_trip_witness :
  let texts := map js_of_bytes three_chunks in
  concat texts = concat (map Transport.frame [js_of_bytes a1]) /\
  Transport.receive sample_parse texts [] = ([js_of_bytes a1], []).
Proof.
  cbv zeta; split; [reflexivity|].
  apply (reader_round_trip _ sample_parse [js_of_bytes a1]
           (map js_of_bytes three_chunks)); reflexivity.
Defined.

Lemma relay_to_child_witness :
  let messages := [bytes "one"; bytes "two"] in
  killed connected = false /\
  Proxy.run sample_parse sample_preview (map WsMessage messages) connected
  = (map StdinWrite messages, connected).
Proof.
  cbv zeta; split; [reflexivity|].
  apply (relay_to_child_in_order _ sample_parse sample_preview connected
           [bytes "one"; bytes "two"] eq_refl).
Defined.

Lemma no_stdin_write_after_kill_witness :
  let st := {| buffer := []; killed := true |} in
  let es := [WsMessage (bytes "late"); StdoutData OPEN (bytes "x");
             WsClosed true; WsMessage (bytes "later")] in
  killed st = true /\
  stdin_writes (fst (Proxy.run sample_parse sample_preview es st)) = [] /\
  stdin_writes (fst (RawProxy.run es st)) = [].
Proof.
  cbv zeta; split; [reflexivity|].
  apply (no_stdin_write_after_kill _ sample_parse sample_preview
           [WsMessage (bytes "late"); StdoutData OPEN (bytes "x");
            WsClosed true; WsMessage (bytes "later")]
           {| buffer := []; killed := true |} eq_refl).
Defined.

Lemma writer_reader_round_trip_witness :
  let msg := js "{}" in
  let text := Writer.frame msg in
  Transport.receive sample_parse [firstn 5 text; skipn 5 text] [] = ([msg], []) /\
  snd (Writer.writes sample_stringify [(false, msg)] 0) = 0.
Proof.
  cbv zeta.
  apply (writer_reader_round_trip jsstring sample_parse sample_stringify
           [js "{}"]
           [firstn 5 (Writer.frame (js "{}")); skipn 5 (Writer.frame (js "{}"))] 0).
  - constructor; [|constructor].
    exists (js "{}"); split; [reflexivity|]; split; [|reflexivity].
    repeat (constructor; [reflexivity|]); constructor.
  - reflexivity.
Defined.

Lemma writer_reader_length_mismatch_witness :
  Exists (fun c => (128 <= c)%N) e_acute /\
  Transport.parseMessages sample_parse (Writer.frame e_acute)
  = ([], Writer.frame e_acute) /\
  Transport.parseMessages sample_parse (Writer.frame e_acute ++ Writer.frame e_acute)
  = ([], skipn 1 (Writer.frame e_acute)).
Proof.
  assert (E : Exists (fun c => (128 <= c)%N) e_acute)
    by (do 2 apply Exists_cons_tl; apply Exists_cons_hd; discriminate).
  destruct (writer_reader_length_mismatch jsstring sample_parse e_acute [])
    as (_ & Hwait & _).
  destruct (writer_reader_length_mismatch jsstring sample_parse e_acute
              (Writer.frame e_acute)) as (_ & _ & Htake).
  split; [exact E|]; split.
  - rewrite <- (app_nil_r (Writer.frame e_acute)) at 1 2.
    apply Hwait; vm_compute; lia.
  - rewrite Htake by (vm_compute; lia); reflexivity.
Defined.

Lemma replies_echo_user_messages_witness :
  let es := [Chat.Change (js "hi"); Chat.SendClicked 10; Chat.Change (js "yo");
             Chat.SendClicked 20; Chat.TimerFires 1010]%N in
  forallb (fun e => negb (Chat.is_new_chat e)) es = true /\
  answers (Chat.run es Chat.initial).
Proof.
  cbv zeta; split; [reflexivity|].
  apply (replies_echo_user_messages
           [Chat.Change (js "hi"); Chat.SendClicked 10; Chat.Change (js "yo");
            Chat.SendClicked 20; Chat.TimerFires 1010]%N eq_refl).
Defined.

Lemma isUnder_needs_the_slash_witness :
  Permission.isUnder (js "/home/username") (js "/home/user") = false /\
  Permission.isUnder (js "/home/user") (js "/home/user/") = false /\
  forall rest, Permission.isUnder (js "/home/user" ++ js "/" ++ rest) (js "/home/user")
               = true.
Proof.
  apply (isUnder_needs_the_slash (js "/home/user") (js "name"));
    [reflexivity | discriminate | reflexivity].
Defined.

Lemma read_under_cwd_is_textual_witness :
  Permission.evaluate (request_for "read" (Some (js "/work/../etc/passwd")))
                      (service_in false (Some (js "/work")))
  = true.
Proof.
  apply (read_under_cwd_is_textual
           (request_for "read" (Some (js "/work/../etc/passwd")))
           (service_in false (Some (js "/work")))
           (js "/work") (js "../etc/passwd"));
    [reflexivity | discriminate | reflexivity | reflexivity].
Defined.

Lemma no_cwd_no_rules_asks_the_user_witness :
  let s := {| Permission.allowAll := true; Permission.cwd := Some [];
              Permission.stored := Permission.Unparsable |} in
  Permission.evaluate (request_for "shell" None) (Permission.clearRules s) = false /\
  Permission.evaluate (request_for "shell" None) s = false.
Proof.
  cbv zeta.
  destruct (no_cwd_no_rules_asks_the_user (request_for "shell" None)
              {| Permission.allowAll := true; Permission.cwd := Some [];
                 Permission.stored := Permission.Unparsable |} eq_refl)
    as (Hclear & Hitem & _).
  split; [exact Hclear | exact (Hitem eq_refl)].
Defined.

Lemma always_shell_approves_every_shell_witness :
  let first :=
    {| Permission.kind := js "shell"; Permission.path := None;
       Permission.fileName := None; Permission.fullCommandText := Some (js "ls") |} in
  let later :=
    {| Permission.kind := js "shell"; Permission.path := None;
       Permission.fileName := None;
       Permission.fullCommandText := Some (js "rm -rf /") |} in
  Permission.evaluate later (service_in false None) = false /\
  Permission.evaluate later (Permission.always first (service_in false None)) = true.
Proof.
  cbv zeta; split; [reflexivity|].
  apply always_shell_approves_every_shell; reflexivity.
Defined.

Lemma always_does_not_cover_its_own_path_witness :
  let request := request_for "write" (Some (js "/work/a.txt")) in
  Permission.evaluate request (service_in false None) = false /\
  Permission.evaluate request (Permission.always request (service_in false None))
  = false.
Proof.
  cbv zeta; split; [reflexivity|].
  apply (always_does_not_cover_its_own_path
           (request_for "write" (Some (js "/work/a.txt")))
           (service_in false None) (js "/work/a.txt"));
    [reflexivity | discriminate | reflexivity | discriminate | reflexivity].
Defined.

Lemma always_covers_paths_below_witness :
  let first := request_for "write" (Some (js "/work/src")) in
  let later := request_for "write" (Some (js "/work/src/a.txt")) in
  Permission.evaluate later (service_in false None) = false /\
  Permission.evaluate later (Permission.always first (service_in false None)) = true.
Proof.
  cbv zeta; split; [reflexivity|].
  apply (always_covers_paths_below
           (request_for "write" (Some (js "/work/src")))
           (request_for "write" (Some (js "/work/src/a.txt")))
           (service_in false None) (js "/work/src") (js "a.txt")); reflexivity.
Defined.

Lemma always_without_path_covers_root_witness :
  let first := request_for "write" None in
  let later := request_for "write" (Some (js "/etc/passwd")) in
  Permission.evaluate later (service_in false None) = false /\
  Permission.evaluate later (Permission.always first (service_in false None)) = true.
Proof.
  cbv zeta; split; [reflexivity|].
  apply (always_without_path_covers_root
           (request_for "write" None)
           (request_for "write" (Some (js "/etc/passwd")))
           (service_in false None) (js "etc/passwd")); reflexivity.
Defined.

Lemma removeRule_is_splice_witness :
  let rule := {| Permission.rule_kind := js "read"; Permission.pathPrefix := js "/a" |} in
  let s := {| Permission.allowAll := false; Permission.cwd := None;
              Permission.stored :=
                Permission.RulesText
                  [{| Permission.rule_kind := js "write";
                      Permission.pathPrefix := js "/b/" |}] |} in
  Permission.getRules (Permission.removeRule 1 (Permission.addRule rule s))
  = Permission.getRules s /\
  Permission.getRules (Permission.removeRule (-1) (Permission.addRule rule s))
  = Permission.getRules s.
Proof.
  cbv zeta.
  destruct (removeRule_is_splice
              {| Permission.rule_kind := js "read"; Permission.pathPrefix := js "/a" |}
              {| Permission.allowAll := false; Permission.cwd := None;
                 Permission.stored :=
                   Permission.RulesText
                     [{| Permission.rule_kind := js "write";
                         Permission.pathPrefix := js "/b/" |}] |} eq_refl)
    as (Hat & Hlast & _).
  split; [exact Hat | exact Hlast].
Defined.

Lemma handleSend_sends_unless_blank_witness :
  let st := Chat.handle (Chat.Change (js " hi ")) Chat.initial in
  forallb Header.is_space (Chat.inputValue st) = false /\
  Chat.messages (Chat.run [Chat.SendClicked 10; Chat.TimerFires 1010] st)
  = [{| Chat.id := 10; Chat.text := js " hi ";
        Chat.sender := Chat.user; Chat.timestamp := 10 |};
     {| Chat.id := 1011; Chat.text := js "You said:  hi ";
        Chat.sender := Chat.assistant; Chat.timestamp := 1010 |}].
Proof.
  cbv zeta; split; [reflexivity|].
  destruct (handleSend_sends_unless_blank 10
              (Chat.handle (Chat.Change (js " hi ")) Chat.initial))
    as [_ H].
  destruct (H eq_refl) as [_ Hrun].
  exact (Hrun 1010%N eq_refl).
Defined.
